(** * Forge service discovery, dependency resolution and versioning

    A shallow embedding of [forge/service.py]: the ignore-aware discovery
    walk ([Discovery.search]), the dependency closure
    ([Discovery.dependencies] and [Discovery.resolve]), descriptor
    classification ([is_service_descriptor]) and the versioning scheme
    ([shafiles], [get_version], [Service.version]).

    Python values are modelled as follows.
    - [str] (Python 2 byte strings) is [string]; a path is the list of its
      components below the filesystem root, so [os.path.join p n] is
      [p ++ [n]] and [os.path.dirname] drops the last component.
    - The filesystem is a tree of [node]s; a read either yields the bytes
      or fails with an [errno].
    - Exceptions are values of [exn]; code that can raise lives in the
      monad [M], which threads the interpreter [state] (filesystem,
      registry, heap of [Service] objects) and keeps the state reached
      when an exception escapes.
    - [Service] objects live in a heap indexed by allocation order, so
      that the registry, the result list and the [parent] pointer of the
      walk alias the same mutable object.
    - The decorator [@task()] is taken as transparent, and what
      [task.echo] prints is not part of the state. *)

From Stdlib Require Import ZArith String Ascii List DecimalString DecimalNat Lia.
From stdpp Require Import gmap strings list.

Set Warnings "-register-all,-clear-no-such-hyp".

Open Scope string_scope.
Open Scope list_scope.

(** ** SHA-1 ([hashlib.sha1]) *)

Module SHA1.

Local Open Scope Z_scope.

Definition w32 (x : Z) : Z := x mod 2 ^ 32.

Definition rotl (n x : Z) : Z :=
  w32 (Z.lor (Z.shiftl x n) (Z.shiftr x (32 - n))).

Definition bytes_of_string (s : string) : list Z :=
  map (fun c => Z.of_N (N_of_ascii c)) (list_ascii_of_string s).

(** Big-endian encoding of [x] on [n] bytes. *)
Fixpoint be_bytes (n : nat) (x : Z) : list Z :=
  match n with
  | O => []
  | S n' => (Z.shiftr x (8 * Z.of_nat n')) mod 256 :: be_bytes n' x
  end.

Definition pad (msg : list Z) : list Z :=
  let l := length msg in
  msg ++ [128] ++ repeat 0 ((119 - l mod 64) mod 64)%nat
      ++ be_bytes 8 (8 * Z.of_nat l).

Fixpoint words (bs : list Z) : list Z :=
  match bs with
  | a :: b :: c :: d :: rest =>
      (a * 2 ^ 24 + b * 2 ^ 16 + c * 2 ^ 8 + d) :: words rest
  | _ => []
  end.

Definition f_k (t : nat) (b c d : Z) : Z * Z :=
  if (t <? 20)%nat then
    (Z.lor (Z.land b c) (Z.land (Z.lxor b 0xFFFFFFFF) d), 0x5A827999)
  else if (t <? 40)%nat then
    (Z.lxor (Z.lxor b c) d, 0x6ED9EBA1)
  else if (t <? 60)%nat then
    (Z.lor (Z.lor (Z.land b c) (Z.land b d)) (Z.land c d), 0x8F1BBCDC)
  else
    (Z.lxor (Z.lxor b c) d, 0xCA62C1D6).

Definition digest5 : Type := Z * Z * Z * Z * Z.

(** [rounds n t w v] runs rounds [t .. t+n-1]; [w] is the window
    [W[t] .. W[t+15]] of the message schedule. *)
Fixpoint rounds (n t : nat) (w : list Z) (v : digest5) : digest5 :=
  match n with
  | O => v
  | S n' =>
      let '(a, b, c, d, e) := v in
      let wt := nth 0 w 0 in
      let '(f, k) := f_k t b c d in
      let temp := w32 (rotl 5 a + f + e + k + wt) in
      let wnew :=
        rotl 1 (Z.lxor (Z.lxor (Z.lxor (nth 13 w 0) (nth 8 w 0)) (nth 2 w 0)) wt) in
      rounds n' (S t) (tl w ++ [wnew]) (temp, a, rotl 30 b, c, d)
  end.

Definition compress (h : digest5) (block : list Z) : digest5 :=
  let '(h0, h1, h2, h3, h4) := h in
  let '(a, b, c, d, e) := rounds 80 0 block h in
  (w32 (h0 + a), w32 (h1 + b), w32 (h2 + c), w32 (h3 + d), w32 (h4 + e)).

Fixpoint blocks (fuel : nat) (ws : list Z) (h : digest5) : digest5 :=
  match fuel with
  | O => h
  | S fuel' =>
      match ws with
      | [] => h
      | _ => blocks fuel' (drop 16 ws) (compress h (take 16 ws))
      end
  end.

Definition init : digest5 :=
  (0x67452301, 0xEFCDAB89, 0x98BADCFE, 0x10325476, 0xC3D2E1F0).

Definition hex_digit (x : Z) : ascii :=
  if x <? 10 then ascii_of_N (Z.to_N (48 + x))
  else ascii_of_N (Z.to_N (87 + x)).

Fixpoint hex (n : nat) (x : Z) : string :=
  match n with
  | O => EmptyString
  | S n' => String (hex_digit (Z.shiftr x (4 * Z.of_nat n') mod 16)) (hex n' x)
  end.

Definition hexdigest_of (s : string) : string :=
  let ws := words (pad (bytes_of_string s)) in
  let '(a, b, c, d, e) := blocks (length ws) ws init in
  hex 8 a +:+ hex 8 b +:+ hex 8 c +:+ hex 8 d +:+ hex 8 e.

End SHA1.

(** ** Strings, paths and exceptions *)

Definition NUL : string := String "000"%char EmptyString.

(** ["%s" % n] for a non-negative integer. *)
Definition str_of_nat (n : nat) : string :=
  NilEmpty.string_of_uint (Nat.to_uint n).

(** [str.isspace] on one byte. *)
Definition is_space (c : ascii) : bool :=
  match nat_of_ascii c with
  | 9 | 10 | 11 | 12 | 13 | 32 => true
  | _ => false
  end.

Fixpoint lstrip (s : string) : string :=
  match s with
  | EmptyString => EmptyString
  | String c s' => if is_space c then lstrip s' else s
  end.

Fixpoint rstrip (s : string) : string :=
  match s with
  | EmptyString => EmptyString
  | String c s' =>
      let r := rstrip s' in
      if is_space c && String.eqb r "" then EmptyString else String c r
  end.

(** [str.strip()] *)
Definition strip (s : string) : string := rstrip (lstrip s).

(** [str.split()] with no argument: the maximal runs of non-blank bytes;
    [cur] is the run being read. *)
Fixpoint split_go (s : string) (cur : option string) : list string :=
  match s with
  | EmptyString => match cur with Some w => [w] | None => [] end
  | String c s' =>
      if is_space c then
        match cur with
        | Some w => w :: split_go s' None
        | None => split_go s' None
        end
      else
        split_go s' (Some (match cur with
                           | Some w => w +:+ String c EmptyString
                           | None => String c EmptyString
                           end))
  end.

Definition split (s : string) : list string := split_go s None.

(** Python truth value of a string. *)
Definition nonempty (s : string) : bool := negb (String.eqb s "").

Definition path : Type := list string.

(** [os.path.dirname]; the root is its own parent. *)
Definition dirname (p : path) : path := removelast p.

(** [os.path.basename] *)
Definition basename (p : path) : string := List.last p "".

(** The text of a relative path, as [os.path.relpath] returns it. *)
Definition render (p : path) : string :=
  match p with
  | [] => "."
  | _ => String.concat "/" p
  end.

(** [os.path.relpath child start] where [start] is an ancestor of
    [child] (the only way the walk calls it). *)
Definition relpath (child start : path) : path := drop (length start) child.

Definition ENOENT : Z := 2.
Definition EACCES : Z := 13.
Definition ENOTDIR : Z := 20.
Definition EISDIR : Z := 21.

Inductive exn : Type :=
| TaskError (msg : string)
| IOError (errno : Z)
| KeyError (key : string)
| IndexError
| AttributeError
| RuntimeError
| Stuck       (* a dangling heap index: not reachable from the code *)
| OutOfFuel.  (* the loop bound of the model ran out *)

(** ** The filesystem *)

Inductive node : Type :=
| File (content : string)
| Unreadable (errno : Z)      (* a file whose [open]/[read] fails *)
| Dir (children : list (string * node)).

Fixpoint lookup_child (n : string) (cs : list (string * node)) : option node :=
  match cs with
  | [] => None
  | (m, c) :: cs' => if String.eqb n m then Some c else lookup_child n cs'
  end.

Fixpoint fs_lookup (root : node) (p : path) : option node :=
  match p with
  | [] => Some root
  | n :: p' =>
      match root with
      | Dir cs =>
          match lookup_child n cs with
          | Some c => fs_lookup c p'
          | None => None
          end
      | _ => None
      end
  end.

(** [os.path.exists], [os.path.isdir] *)
Definition exists_ (fs : node) (p : path) : bool :=
  match fs_lookup fs p with Some _ => true | None => false end.

Definition isdir (fs : node) (p : path) : bool :=
  match fs_lookup fs p with Some (Dir _) => true | _ => false end.

(** [open(p).read()]: the bytes, or the [errno] of the [IOError]. *)
Fixpoint open_read (root : node) (p : path) : Z + string :=
  match p, root with
  | [], File c => inr c
  | [], Unreadable e => inl e
  | [], Dir _ => inl EISDIR
  | n :: p', Dir cs =>
      match lookup_child n cs with
      | Some c => open_read c p'
      | None => inl ENOENT
      end
  | _ :: _, _ => inl ENOTDIR
  end.

(** ** Content hashing: [shafiles] *)

(** A [hashlib.sha1()] object is the bytes fed to it so far. *)
Definition sha1_new : string := EmptyString.
Definition update (h data : string) : string := h +:+ data.
Definition hexdigest (h : string) : string := SHA1.hexdigest_of h.

(** The [for name in files] loop of [shafiles]. *)
Fixpoint shafiles_loop (fs : node) (root : path) (files : list path)
    (result : string) : exn + string :=
  match files with
  | [] => inr result
  | name :: rest =>
      let result := update result ("file " +:+ render name +:+ NUL) in
      match open_read fs (root ++ name) with
      | inr data => shafiles_loop fs root rest (update result data)
      | inl e =>
          if (e =? ENOENT)%Z then shafiles_loop fs root rest result
          else inl (IOError e)
      end
  end.

(** The bytes [shafiles] feeds to the hash, when no read fails. *)
Definition shafiles_input (fs : node) (root : path) (files : list path)
    : exn + string :=
  let result := sha1_new in
  let result := update result ("files " +:+ str_of_nat (length files) +:+ NUL) in
  shafiles_loop fs root files result.

Definition shafiles (fs : node) (root : path) (files : list path)
    : exn + string :=
  match shafiles_input fs root files with
  | inl e => inl e
  | inr result => inr (hexdigest result)
  end.

(** ** Version from source control: [is_git], [get_version] *)

(** [is_git] climbs from [path] to the root; [rpath] is the path
    reversed, so that the recursion is on its structure. *)
Fixpoint is_git_up (fs : node) (rpath : list string) : bool :=
  if exists_ fs (rev rpath ++ [".git"]) then true
  else match rpath with
       | [] => false
       | _ :: up => is_git_up fs up
       end.

Definition is_git (fs : node) (p : path) : bool := is_git_up fs (rev p).

(** ** External collaborators

    What [service.py] imports and does not define: the gitwildmatch
    matcher of [pathspec], [yamlutil.load], the template renderer and
    descriptor loader, [fnmatch], the [sh] runner applied to the three git
    commands the module issues, and the [Github] helper.  They are taken
    as parameters.  A command run through [sh] answers its exit code and
    its output; [yamlutil.load] answers the documents or raises one of
    the two exceptions the module catches. *)

(** A parsed YAML document, as far as the module looks at it: its keys. *)
Definition document : Type := list (string * string).

Definition has_key (k : string) (d : document) : bool :=
  existsb (fun kv => String.eqb k (fst kv)) d.

(** Outcome of [yamlutil.load] on the bytes of a file. *)
Inductive yaml_result : Type :=
| ParserError
| ScannerError
| Loaded (objs : list document).

(** The [requires] entry of a descriptor: absent, one name, or a list. *)
Inductive requires_field : Type :=
| ReqAbsent
| ReqString (s : string)
| ReqList (l : list string).

(** The descriptor mapping returned by [service_info.load], restricted to
    the entries the module reads. *)
Record info : Type := {
  info_name : option string;
  info_requires : requires_field;
  info_branches : list (string * string)
}.

Inductive load_outcome : Type :=
| SchemaError (e : string)
| LoadParserError (e : string)
| LoadScannerError (e : string)
| LoadOk (i : info).

Record Collaborators : Type := {
  (** [PathSpec.from_lines('gitwildmatch', lines).match_file(relpath)] *)
  match_file : list string -> string -> bool;
  (** [yamlutil.load], on the bytes read *)
  yamlutil_load : string -> yaml_result;
  (** [renders(name, content, branch=..., env=os.environ)] *)
  renders : string -> string -> option string -> string;
  (** [service_info.load(name, rendered)] *)
  service_info_load : string -> string -> load_outcome;
  (** [fnmatch.fnmatch(name, pattern)] *)
  fnmatch : string -> string -> bool;
  (** [sh("git", "diff", "--quiet", "HEAD", ".", cwd=..., expected=(0, 1))]:
      what [sh] raises, or the exit code of the result *)
  git_diff_quiet : path -> exn + Z;
  (** [sh("git", "log", "--no-color", "-n1", "--format=oneline", "--", ".",
      cwd=...)]: what [sh] raises, or the output of the result *)
  git_log_oneline : path -> exn + string;
  (** output of [git rev-parse --abbrev-ref HEAD] *)
  git_rev_parse : path -> string;
  (** [Github.remote], [Github.exists], and the tree [Github.clone] creates *)
  gh_remote : path -> option string;
  gh_exists : string -> bool;
  gh_clone : string -> exn + node
}.

(** The [forge] context object: only the attributes the module reads. *)
Module Forge.
Record Profile : Type := { search_path : list path }.
Record t : Type := {
  base : path;
  branch : option string;
  profile : option string;
  profiles : gmap string Profile
}.
End Forge.

(** ** Services, the heap and the monad *)

Record Service : Type := {
  descriptor : path;
  dockerfiles : list path;
  files : list path;
  _info : option info;
  _version : option string;
  shallow : bool;
  gitroot : option path;
  is_git_attr : bool;          (* the attribute [self.is_git] *)
  branch : option string;
  forgeroot : path
}.

(** [Service.root] *)
Definition root (svc : Service) : path := dirname (descriptor svc).

Definition with_files (svc : Service) (l : list path) : Service :=
  {| descriptor := descriptor svc; dockerfiles := dockerfiles svc; files := l;
     _info := _info svc; _version := _version svc; shallow := shallow svc;
     gitroot := gitroot svc; is_git_attr := is_git_attr svc;
     branch := branch svc; forgeroot := forgeroot svc |}.

Definition with_dockerfiles (svc : Service) (l : list path) : Service :=
  {| descriptor := descriptor svc; dockerfiles := l; files := files svc;
     _info := _info svc; _version := _version svc; shallow := shallow svc;
     gitroot := gitroot svc; is_git_attr := is_git_attr svc;
     branch := branch svc; forgeroot := forgeroot svc |}.

Definition with_info (svc : Service) (i : info) : Service :=
  {| descriptor := descriptor svc; dockerfiles := dockerfiles svc;
     files := files svc; _info := Some i; _version := _version svc;
     shallow := shallow svc; gitroot := gitroot svc;
     is_git_attr := is_git_attr svc; branch := branch svc;
     forgeroot := forgeroot svc |}.

Definition with_version (svc : Service) (v : string) : Service :=
  {| descriptor := descriptor svc; dockerfiles := dockerfiles svc;
     files := files svc; _info := _info svc; _version := Some v;
     shallow := shallow svc; gitroot := gitroot svc;
     is_git_attr := is_git_attr svc; branch := branch svc;
     forgeroot := forgeroot svc |}.

(** The interpreter state: the filesystem, the registry
    [Discovery.services] (name to object) and the heap of [Service]
    objects; an object is its index in [heap]. *)
Record state : Type := {
  fs : node;
  services : gmap string nat;
  heap : list Service
}.

Definition set_fs (f : node) (st : state) : state :=
  {| fs := f; services := services st; heap := heap st |}.
Definition set_services (r : gmap string nat) (st : state) : state :=
  {| fs := fs st; services := r; heap := heap st |}.
Definition set_heap (h : list Service) (st : state) : state :=
  {| fs := fs st; services := services st; heap := h |}.

Definition M (A : Type) : Type := state -> (exn + A) * state.

Definition ret {A} (a : A) : M A := fun st => (inr a, st).
Definition raise {A} (e : exn) : M A := fun st => (inl e, st).
Definition bind {A B} (m : M A) (k : A -> M B) : M B :=
  fun st =>
    match m st with
    | (inl e, st') => (inl e, st')
    | (inr a, st') => k a st'
    end.
Definition lift {A} (r : exn + A) : M A := fun st => (r, st).
Definition gets {A} (f : state -> A) : M A := fun st => (inr (f st), st).
Definition modify (f : state -> state) : M unit := fun st => (inr tt, f st).

Notation "x <- m ;; k" := (bind m (fun x => k))
  (at level 20, m at level 99, k at level 200, only parsing).
Notation "' pat <- m ;; k" := (bind m (fun x => match x with pat => k end))
  (at level 20, pat pattern, m at level 99, k at level 200, only parsing).

Definition get_service (id : nat) : M Service :=
  fun st =>
    match heap st !! id with
    | Some svc => (inr svc, st)
    | None => (inl Stuck, st)
    end.

Definition set_service (id : nat) (svc : Service) : M unit :=
  modify (fun st => set_heap (<[id := svc]> (heap st)) st).

(** Map an effectful function over a list, left to right. *)
Fixpoint mapM {A B} (f : A -> M B) (l : list A) : M (list B) :=
  match l with
  | [] => ret []
  | a :: l' => b <- f a ;; bs <- mapM f l' ;; ret (b :: bs)
  end.

(** [open(p).read()] as a step that raises [IOError]. *)
Definition read_file (fs : node) (p : path) : exn + string :=
  match open_read fs p with
  | inr data => inr data
  | inl e => inl (IOError e)
  end.

(** [fd.readlines()]: the lines with their newline. *)
Fixpoint readlines_go (s : string) (cur : string) : list string :=
  match s with
  | EmptyString => if nonempty cur then [cur] else []
  | String c s' =>
      let cur := cur +:+ String c EmptyString in
      if Ascii.eqb c "010" then cur :: readlines_go s' EmptyString
      else readlines_go s' cur
  end.

Definition readlines (s : string) : list string := readlines_go s EmptyString.

(** The text of an absolute path. *)
Definition render_abs (p : path) : string := "/" +:+ String.concat "/" p.

(** [str.split(sep)] for a one-byte separator. *)
Fixpoint split_on (sep : ascii) (s : string) (cur : string) : list string :=
  match s with
  | EmptyString => [cur]
  | String c s' =>
      if Ascii.eqb c sep then cur :: split_on sep s' EmptyString
      else split_on sep s' (cur +:+ String c EmptyString)
  end.

(** Modelled from the spec: [util.search_parents], which is not part of
    [service.py].  It looks for an entry called [name] in [start] and in
    each directory above it, and answers the path of the closest one, or
    with [root] of the one closest to the filesystem root ("the enclosing
    version-control root", "the enclosing multi-service root"). *)
Fixpoint search_parents_up (fs : node) (name : string) (rstart : list string)
    (root : bool) (rootiest : option path) : option path :=
  let candidate := rev rstart ++ [name] in
  let here := exists_ fs candidate in
  if here && negb root then Some candidate
  else
    let rootiest := if here then Some candidate else rootiest in
    match rstart with
    | [] => rootiest
    | _ :: up => search_parents_up fs name up root rootiest
    end.

Definition search_parents (fs : node) (name : string) (start : path)
    (root : bool) : option path :=
  search_parents_up fs name (rev start) root None.

(** Fill a directory tree at [p], creating the directories on the way
    (what [git clone <url> <p>] does to the filesystem). *)
Fixpoint put_child (n : string) (c : node) (cs : list (string * node))
    : list (string * node) :=
  match cs with
  | [] => [(n, c)]
  | (m, d) :: cs' =>
      if String.eqb n m then (m, c) :: cs' else (m, d) :: put_child n c cs'
  end.

Fixpoint fs_put (n : node) (p : path) (new : node) : node :=
  match p with
  | [] => new
  | name :: p' =>
      let cs := match n with Dir cs => cs | _ => [] end in
      let sub := match lookup_child name cs with
                 | Some c => c
                 | None => Dir []
                 end in
      Dir (put_child name (fs_put sub p' new) cs)
  end.

Section Functions.

Context (E : Collaborators) (forge : Forge.t).

(** [load_service_yamls]; the echo of the rendered text by
    [_dump_and_raise] goes to the console and is not modelled. *)
Definition load_service_yamls (name content : string)
    (branch : option string) : exn + info :=
  let rendered := renders E name content branch in
  match service_info_load E name rendered with
  | LoadOk i => inr i
  | SchemaError e
  | LoadParserError e
  | LoadScannerError e =>
      inl (TaskError ("error parsing service yaml: " +:+ e))
  end.

Definition load_service_yaml (fs : node) (p : path)
    (branch : option string) : exn + info :=
  match read_file fs p with
  | inl e => inl e
  | inr content => load_service_yamls (render_abs p) content branch
  end.

(** [get_ignores]: the lines of [.gitignore], then of [.forgeignore]. *)
Fixpoint get_ignores_files (fs : node) (ignorefiles : list path)
    (ignores : list string) : exn + list string :=
  match ignorefiles with
  | [] => inr ignores
  | p :: rest =>
      if exists_ fs p then
        match read_file fs p with
        | inl e => inl e
        | inr content =>
            get_ignores_files fs rest (ignores ++ readlines content)
        end
      else get_ignores_files fs rest ignores
  end.

Definition get_ignores (fs : node) (directory : path)
    : exn + list string :=
  let ignorefiles := [directory ++ [".gitignore"];
                      directory ++ [".forgeignore"]] in
  get_ignores_files fs ignorefiles [].

(** [get_ancestors path stop], from [stop] down to the parent of
    [path]; [None] when the recursion never meets [stop]. *)
Fixpoint get_ancestors_up (rpath : list string) (stop : path)
    : option (list path) :=
  if bool_decide (rev rpath = stop) then Some []
  else
    match rpath with
    | [] => None
    | _ :: up =>
        match get_ancestors_up up stop with
        | Some ds => Some (ds ++ [rev up])
        | None => None
        end
    end.

Definition get_ancestors (p stop : path) : option (list path) :=
  get_ancestors_up (rev p) stop.

(** [is_service_descriptor] *)
Definition is_service_descriptor (fs : node) (p : path) : exn + bool :=
  match read_file fs p with
  | inl e => inl e
  | inr content =>
      match yamlutil_load E content with
      | ParserError => inr true
      | ScannerError => inr true
      | Loaded objs =>
          match objs with
          | first :: _ =>
              if has_key "apiVersion" first && has_key "kind" first
                 && has_key "metadata" first
              then inr false
              else inr true
          | [] => inr true
          end
      end
  end.

(** [get_version]; [sh] raises when the command ends with a status that
    is not expected. *)
Definition get_version (fs : node) (p : path) (dirty : string)
    : exn + string :=
  if is_git fs p then
    match git_diff_quiet E p with
    | inl e => inl e
    | inr code =>
        if (code =? 0)%Z then
          match git_log_oneline E p with
          | inl e => inl e
          | inr output =>
              let line := strip output in
              if nonempty line then
                let version := hd EmptyString (split line) in
                inr (version +:+ ".git")
              else inr dirty
          end
        else inr dirty
    end
  else inr dirty.

End Functions.

(** Python truth value of an optional string ([None] and [""] are false). *)
Definition truthy (o : option string) : bool :=
  match o with
  | Some s => nonempty s
  | None => false
  end.

Fixpoint assoc (k : string) (l : list (string * string)) : option string :=
  match l with
  | [] => None
  | (k', v) :: l' => if String.eqb k k' then Some v else assoc k l'
  end.

(** ** The [Service] class *)

Module Service.
Section Methods.

Context (E : Collaborators) (forge : Forge.t).

(** [Service.__init__]: allocates the object and answers it. *)
Definition init (descriptor : path) (shallow : bool) : M nat :=
  fun st =>
    let root := dirname descriptor in
    let gitdir := search_parents (fs st) ".git" root false in
    let '(gitroot, is_git) :=
      match gitdir with
      | Some g => (Some (dirname g), true)
      | None => (None, false)
      end in
    let branch :=
      if truthy (Forge.branch forge) then Forge.branch forge
      else if is_git then
        let output := strip (git_rev_parse E root) in
        if String.eqb output "HEAD" then None else Some output
      else None in
    match search_parents (fs st) "service.yaml" root true with
    | None => (inl AttributeError, st)
    | Some top =>
        let svc := {| descriptor := descriptor; dockerfiles := [];
                      files := []; _info := None; _version := None;
                      shallow := shallow; gitroot := gitroot;
                      is_git_attr := is_git; branch := branch;
                      forgeroot := dirname top |} in
        (inr (length (heap st)), set_heap (heap st ++ [svc]) st)
    end.

(** [Service.info]: loads the descriptor on first use and caches it.
    The rewriting of a boolean [istio] entry touches no entry read
    here. *)
Definition info (id : nat) : M info :=
  svc <- get_service id ;;
  match _info svc with
  | Some i => ret i
  | None =>
      f <- gets fs ;;
      i <- lift (load_service_yaml E f (descriptor svc) (branch svc)) ;;
      _ <- set_service id (with_info svc i) ;;
      ret i
  end.

(** [Service.name] *)
Definition name (id : nat) : M string :=
  i <- info id ;;
  match info_name i with
  | Some n => ret n
  | None => svc <- get_service id ;; ret (basename (root svc))
  end.

(** [Service.requires] *)
Definition requires (id : nat) : M (list string) :=
  i <- info id ;;
  ret (match info_requires i with
       | ReqAbsent => []
       | ReqString value => [value]
       | ReqList value => value
       end).

(** [Service.version]: computed once, then read from [_version].  The
    argument [dirty] of [get_version] is evaluated before the call. *)
Definition version (id : nat) : M string :=
  svc <- get_service id ;;
  match _version svc with
  | Some v => ret v
  | None =>
      f <- gets fs ;;
      digest <- lift (shafiles f (root svc) (files svc)) ;;
      v <- lift (get_version E f (root svc) (digest +:+ ".sha")) ;;
      _ <- set_service id (with_version svc v) ;;
      ret v
  end.

(** [Service.profile] *)
Definition profile (id : nat) : M string :=
  svc <- info id ;;
  match Forge.profile forge with
  | None =>
      self <- get_service id ;;
      let branches := info_branches svc in
      if truthy (branch self) then
        let b := default EmptyString (branch self) in
        ret (match find (fun kv => fnmatch E b (fst kv)) branches with
             | Some (_, v) => v
             | None => "default"
             end)
      else
        ret (match assoc "*" branches with
             | Some v => v
             | None => "default"
             end)
  | Some p => ret p
  end.

(** [Service.forge_profile] *)
Definition forge_profile (id : nat) : M Forge.Profile :=
  p <- profile id ;;
  match Forge.profiles forge !! p with
  | Some prof => ret prof
  | None =>
      match Forge.profiles forge !! "default" with
      | Some prof => ret prof
      | None => raise (KeyError "default")
      end
  end.

(** [Service.search_path] *)
Definition search_path (id : nat) : M (list path) :=
  prof <- forge_profile id ;;
  ret (Forge.search_path prof).

Definition append_file (id : nat) (rel : path) : M unit :=
  svc <- get_service id ;;
  set_service id (with_files svc (files svc ++ [rel])).

Definition append_dockerfile (id : nat) (rel : path) : M unit :=
  svc <- get_service id ;;
  set_service id (with_dockerfiles svc (dockerfiles svc ++ [rel])).

End Methods.
End Service.

(** [get_search_path] *)
Definition get_search_path (E : Collaborators) (forge : Forge.t) (svc : nat)
    : M (list path) :=
  sp <- Service.search_path E forge svc ;;
  ret (map (fun p => Forge.base forge ++ p) sp).

(** ** The [Discovery] class *)

Module Discovery.
Section Methods.

Context (E : Collaborators) (forge : Forge.t).

(** [if svc.name not in self.services: self.services[svc.name] = svc] *)
Definition register (name : string) (svc : nat) : M unit :=
  modify (fun st =>
            match services st !! name with
            | Some _ => st
            | None => set_services (<[name := svc]> (services st)) st
            end).

Section Walk.

(** The variables [descend] closes over: the root of the walk and
    the [shallow] flag. *)
Context (directory : path) (shallow : bool).

(** Whether [n], listed under [p], passes the filter on
    [os.listdir(path)]. *)
Definition kept (ignores : list string) (p : path) (n : string) : bool :=
  negb (match_file E ignores (render (relpath (p ++ [n]) directory))).

(** The block under [if "service.yaml" in names]: answers the
    enclosing service and the list [found] after it. *)
Definition on_descriptor (p : path) (names : list string)
    (parent : option nat) (found : list nat)
    : M (option nat * list nat) :=
  if bool_decide ("service.yaml" ∈ names) then
    let candidate := p ++ ["service.yaml"] in
    f <- gets fs ;;
    genuine <- lift (is_service_descriptor E f candidate) ;;
    if genuine : bool then
      svc <- Service.init E forge candidate shallow ;;
      name <- Service.name E svc ;;
      _ <- register name svc ;;
      ret (Some svc, found ++ [svc])
    else ret (parent, found)
  else ret (parent, found).

(** The block under [if "Dockerfile" in names and parent]. *)
Definition on_dockerfile (p : path) (names : list string)
    (parent : option nat) : M unit :=
  if bool_decide ("Dockerfile" ∈ names) then
    match parent with
    | Some par =>
        psvc <- get_service par ;;
        Service.append_dockerfile par
          (relpath (p ++ ["Dockerfile"]) (root psvc))
    | None => ret tt
    end
  else ret tt.

(** The branch [elif parent] of the loop over [names]. *)
Definition on_file (child : path) (parent : option nat) : M unit :=
  match parent with
  | Some par =>
      psvc <- get_service par ;;
      Service.append_file par (relpath child (root psvc))
  | None => ret tt
  end.

Section Loop.

(** The loop [for n in names] of [descend]: [rec] is the recursive
    call, [parent] and [ignores] are the locals it reads.  It runs over
    the entries of the directory and skips those the filter on [names]
    removes. *)
Context (rec : path -> node -> option nat -> list string -> list nat
               -> M (list nat)).
Context (p : path) (parent : option nat) (ignores : list string).

Fixpoint for_names (cs : list (string * node)) (found : list nat)
    : M (list nat) :=
  match cs with
  | [] => ret found
  | (name, c) :: cs' =>
      if kept ignores p name then
        let child := p ++ [name] in
        match c with
        | Dir _ =>
            found <- rec child c parent ignores found ;;
            for_names cs' found
        | _ =>
            _ <- on_file child parent ;;
            for_names cs' found
        end
      else for_names cs' found
  end.

End Loop.

(** [descend path parent ignores].  [n] is the directory at [p]; its
    entries are [os.listdir(path)] in listing order, and an entry is
    the node at [os.path.join(path, name)], names in one directory
    being distinct.  [found] is the list the closure appends to; the
    filesystem does not change during a walk, so the test
    [os.path.exists(path)] always holds. *)
Fixpoint descend (p : path) (n : node) (parent : option nat)
    (ignores : list string) (found : list nat) {struct n}
    : M (list nat) :=
  match n with
  | Dir children =>
      f <- gets fs ;;
      own <- lift (get_ignores f p) ;;
      let ignores := ignores ++ own in
      let names := filter (fun n => kept ignores p n = true)
                          (map fst children) in
      '(parent, found) <- on_descriptor p names parent found ;;
      _ <- on_dockerfile p names parent ;;
      for_names descend p parent ignores children found
  | _ => ret found
  end.

End Walk.

(** [for d in ancestors: base_ignores.extend(get_ignores(d))] *)
Fixpoint extend_ignores (f : node) (ds : list path)
    (base_ignores : list string) : exn + list string :=
  match ds with
  | [] => inr base_ignores
  | d :: ds' =>
      match get_ignores f d with
      | inl e => inl e
      | inr l => extend_ignores f ds' (base_ignores ++ l)
      end
  end.

(** [Discovery.search]: answers the list [found]. *)
Definition search (directory : path) (shallow : bool) : M (list nat) :=
  f <- gets fs ;;
  if negb (exists_ f directory) then
    raise (TaskError ("no such directory: " +:+ render_abs directory))
  else if negb (isdir f directory) then
    raise (TaskError ("not a directory: " +:+ render_abs directory))
  else
    let base_ignores := [".git"; ".forge"] in
    let gitdir := search_parents f ".git" directory false in
    let gitroot := match gitdir with
                   | None => directory
                   | Some g => dirname g
                   end in
    ancestors <- match get_ancestors directory gitroot with
                 | Some ds => ret ds
                 | None => raise RuntimeError
                 end ;;
    base_ignores <- lift (extend_ignores f ancestors base_ignores) ;;
    match fs_lookup f directory with
    | Some n => descend directory shallow directory n None base_ignores []
    | None => ret []
    end.

(** The loop over the search path in [resolve]: [true] as soon as a
    search finds a service called [dep].  In Python 2 the variable of
    a list comprehension is a variable of the enclosing function, so
    [[svc.name for svc in found]] leaves [svc] bound to the last
    element of a non-empty [found]; the second component is [svc]
    after the loop. *)
Fixpoint resolve_locally (dep : string) (paths : list path) (svc : nat)
    : M (bool * nat) :=
  match paths with
  | [] => ret (false, svc)
  | p :: rest =>
      found <- search p false ;;
      names <- mapM (Service.name E) found ;;
      let svc := List.last found svc in
      if bool_decide (dep ∈ names) then ret (true, svc)
      else resolve_locally dep rest svc
  end.

(** [Discovery.resolve]; the echo of the clone is not modelled.  The
    generator [get_search_path(self.forge, svc)] holds the [svc] passed
    in. *)
Definition resolve (svc : nat) (dep : string) : M bool :=
  paths <- get_search_path E forge svc ;;
  '(hit, svc) <- resolve_locally dep paths svc ;;
  if hit : bool then ret true
  else
    self <- get_service svc ;;
    let target := forgeroot self ++ [".forge"; dep] in
    f <- gets fs ;;
    fetched <-
      (if negb (exists_ f target) then
         match gh_remote E (root self) with
         | None => ret false
         | Some url =>
             let parts := split_on "/" url EmptyString in
             let prefix := String.concat "/" (removelast parts) in
             let remote := prefix +:+ "/" +:+ dep +:+ ".git" in
             if gh_exists E remote then
               tree <- lift (gh_clone E remote) ;;
               _ <- modify (fun st => set_fs (fs_put (fs st) target tree) st) ;;
               ret true
             else raise (TaskError ("cannot resolve dependency: " +:+ dep))
         end
       else ret true) ;;
    if fetched : bool then
      found <- search target true ;;
      names <- mapM (Service.name E) found ;;
      ret (bool_decide (dep ∈ names))
    else ret false.

(** The error raised after the loop of [dependencies]. *)
Definition missing_error (missing : list string) : exn :=
  TaskError ("required service(s) missing: " +:+ String.concat ", " missing).

(** [todo.pop()] *)
Definition pop {A} (l : list A) : option (A * list A) :=
  match rev l with
  | [] => None
  | x :: r => Some (x, rev r)
  end.

(** The body of [for r in svc.requires]. *)
Fixpoint for_requires (root : nat) (targets : list string)
    (reqs : list string) (todo : list nat) (added missing : list string)
    : M (list nat * list string * list string) :=
  match reqs with
  | [] => ret (todo, added, missing)
  | r :: rest =>
      reg <- gets services ;;
      missing <-
        (if negb (bool_decide (is_Some (reg !! r))) then
           ok <- resolve root r ;;
           if negb ok then
             if negb (bool_decide (r ∈ missing)) then ret (missing ++ [r])
             else ret missing
           else ret missing
         else ret missing) ;;
      let added :=
        if negb (bool_decide (r ∈ targets)) && negb (bool_decide (r ∈ added))
        then added ++ [r] else added in
      reg <- gets services ;;
      let todo := match reg !! r with
                  | Some s => todo ++ [s]
                  | None => todo
                  end in
      for_requires root targets rest todo added missing
  end.

(** The [while todo] loop; [fuel] bounds the number of iterations.  It
    answers the lists [added] and [missing] once [todo] is empty. *)
Fixpoint while_todo (fuel : nat) (root : nat) (targets : list string)
    (todo : list nat) (visited : gset nat) (added missing : list string)
    : M (list string * list string) :=
  match pop todo with
  | None => ret (added, missing)
  | Some (svc, todo) =>
      match fuel with
      | O => raise OutOfFuel
      | S fuel' =>
          if bool_decide (svc ∈ visited) then
            while_todo fuel' root targets todo visited added missing
          else
            let visited := {[svc]} ∪ visited in
            reqs <- Service.requires E svc ;;
            '(todo, added, missing) <-
              for_requires root targets reqs todo added missing ;;
            while_todo fuel' root targets todo visited added missing
      end
  end.

(** [self.services[t]] *)
Definition getitem (t : string) : M nat :=
  reg <- gets services ;;
  match reg !! t with
  | Some s => ret s
  | None => raise (KeyError t)
  end.

(** [Discovery.dependencies] *)
Definition dependencies (fuel : nat) (targets : list string)
    : M (list string) :=
  todo <- mapM getitem targets ;;
  match todo with
  | [] => raise IndexError
  | root :: _ =>
      '(added, missing) <- while_todo fuel root targets todo ∅ [] [] ;;
      match missing with
      | [] => ret added
      | _ => raise (missing_error missing)
      end
  end.

End Methods.
End Discovery.

(** ** Further methods of [Service] *)

(** [p[:p.rfind('/') + 1]]: the text up to and with the last slash. *)
Fixpoint upto_last_slash (s : string) : string :=
  match s with
  | EmptyString => EmptyString
  | String c s' =>
      let h := upto_last_slash s' in
      if nonempty h || Ascii.eqb c "/" then String c h else EmptyString
  end.

(** [head == '/' * len(head)] *)
Fixpoint all_slashes (s : string) : bool :=
  match s with
  | EmptyString => true
  | String c s' => Ascii.eqb c "/" && all_slashes s'
  end.

(** [head.rstrip('/')] *)
Fixpoint rstrip_slash (s : string) : string :=
  match s with
  | EmptyString => EmptyString
  | String c s' =>
      let r := rstrip_slash s' in
      if Ascii.eqb c "/" && negb (nonempty r) then EmptyString
      else String c r
  end.

Definition starts_with_slash (s : string) : bool :=
  match s with
  | String c _ => Ascii.eqb c "/"
  | EmptyString => false
  end.

Fixpoint ends_with_slash (s : string) : bool :=
  match s with
  | EmptyString => false
  | String c EmptyString => Ascii.eqb c "/"
  | String _ s' => ends_with_slash s'
  end.

(** [posixpath.dirname] on the text of a path. *)
Definition py_dirname (p : string) : string :=
  let head := upto_last_slash p in
  if nonempty head && negb (all_slashes head) then rstrip_slash head
  else head.

(** [posixpath.join a b] *)
Definition py_join (a b : string) : string :=
  if starts_with_slash b then b
  else if negb (nonempty a) || ends_with_slash a then a +:+ b
  else a +:+ "/" +:+ b.

(** [name.replace("/", "-")] *)
Fixpoint replace_slash (s : string) : string :=
  match s with
  | EmptyString => EmptyString
  | String c s' =>
      String (if Ascii.eqb c "/" then "-"%char else c) (replace_slash s')
  end.

(** The dict [pulled] that the caller shares between the calls of
    [Service.pull], and the working directories in which
    [git pull --update-shallow] has been run, oldest first.  A key is
    the attribute [gitroot], which may be [None]. *)
Record pull_state : Type := {
  pulled : gset (option path);
  ran : list (option path)
}.

Module ServiceOps.
Section Methods.

Context (E : Collaborators).

(** [Service.rel_descriptor]; [os.path.relpath] raises on [None]. *)
Definition rel_descriptor (self : Service) : exn + path :=
  if is_git_attr self then
    match gitroot self with
    | Some g => inr (relpath (descriptor self) g)
    | None => inl AttributeError
    end
  else inr (relpath (descriptor self) (forgeroot self)).

(** [Service.image] *)
Definition image (id : nat) (container : string) : M string :=
  let pfx := py_dirname container in
  self_name <- Service.name E id ;;
  let name := if nonempty pfx then py_join self_name pfx else self_name in
  ret (replace_slash name).

(** [Service.pull]; [git_pull] is the outcome of
    [sh("git", "pull", "--update-shallow", cwd=...)], which raises when
    the command fails. *)
Definition pull (git_pull : option path -> exn + unit) (self : Service)
    (ps : pull_state) : (exn + unit) * pull_state :=
  if is_git_attr self && shallow self then
    if negb (bool_decide (gitroot self ∈ pulled ps)) then
      let ps := {| pulled := {[gitroot self]} ∪ pulled ps;
                   ran := ran ps ++ [gitroot self] |} in
      match git_pull (gitroot self) with
      | inl e => (inl e, ps)
      | inr _ => (inr tt, ps)
      end
    else (inr tt, ps)
  else (inr tt, ps).

(** A caller that pulls a list of services in turn with one dict, and
    stops at the first error. *)
Fixpoint pull_each (git_pull : option path -> exn + unit)
    (svcs : list Service) (ps : pull_state) : (exn + unit) * pull_state :=
  match svcs with
  | [] => (inr tt, ps)
  | self :: rest =>
      match pull git_pull self ps with
      | (inl e, ps) => (inl e, ps)
      | (inr _, ps) => pull_each git_pull rest ps
      end
  end.

End Methods.
End ServiceOps.

(** ** Specification-side definitions *)

(** What one listed file contributes to the hashed bytes: its header,
    then its bytes when it can be read. *)
Definition file_record (fs : node) (root : path) (name : path) : string :=
  let header := "file " +:+ render name +:+ NUL in
  match open_read fs (root ++ name) with
  | inr data => header +:+ data
  | inl _ => header
  end.

Definition file_records (fs : node) (root : path) (files : list path)
    : string :=
  String.concat EmptyString (map (file_record fs root) files).

(** A listed file whose read either succeeds or fails with [ENOENT]. *)
Definition tolerated (fs : node) (root : path) (name : path) : Prop :=
  forall e, open_read fs (root ++ name) = inl e -> e = ENOENT.


(** [s] holds no blank byte; [s] is empty or starts with a blank. *)
Fixpoint no_space (s : string) : bool :=
  match s with
  | EmptyString => true
  | String c s' => negb (is_space c) && no_space s'
  end.

Definition blank_start (s : string) : bool :=
  match s with
  | EmptyString => true
  | String c _ => is_space c
  end.

(** The first document has all of [apiVersion], [kind] and [metadata]. *)
Definition kubernetes_shaped (objs : list document) : Prop :=
  exists first rest,
    objs = first :: rest
    /\ has_key "apiVersion" first = true
    /\ has_key "kind" first = true
    /\ has_key "metadata" first = true.

(** The name of a service whose descriptor has been loaded: what
    [Service.name] answers from the cached [_info]. *)
Definition name_of (svc : Service) : option string :=
  match _info svc with
  | Some i => Some (match info_name i with
                    | Some n => n
                    | None => basename (root svc)
                    end)
  | None => None
  end.

Definition heap_name (h : list Service) (id : nat) : option string :=
  match h !! id with
  | Some svc => name_of svc
  | None => None
  end.

(** The first object of [ids] that is called [nm]. *)
Definition first_named (h : list Service) (nm : string) (ids : list nat)
    : option nat :=
  List.find (fun id => bool_decide (heap_name h id = Some nm)) ids.

(** The lines of the ignore files of one directory. *)
Definition own_ignores (f : node) (p : path) : list string :=
  match get_ignores f p with
  | inr l => l
  | inl _ => []
  end.


Section WalkSpec.

Context (E : Collaborators) (directory : path).

(** Every component of [s], read downwards from [p], passes the filter
    of the directory that lists it. *)
Fixpoint all_kept (f : node) (ignores : list string) (p s : path) : Prop :=
  match s with
  | [] => True
  | x :: s' =>
      Discovery.kept E directory (ignores ++ own_ignores f p) p x = true
      /\ all_kept f (ignores ++ own_ignores f p) (p ++ [x]) s'
  end.

(** [q] lies strictly below [p] and was reached through kept names. *)
Definition kept_below (f : node) (ignores : list string) (p q : path)
    : Prop :=
  exists s, q = p ++ s /\ s <> [] /\ all_kept f ignores p s.

(** What a part of the walk below [p] does to the state and to [found],
    [parent] being the enclosing service and [ignores] what [p]
    inherits. *)
Record walk_post (ignores : list string) (p : path) (parent : option nat)
    (st : state) (found : list nat) (st' : state) (found' : list nat)
    : Prop := {
  wp_fs : fs st' = fs st;
  wp_found :
    exists new,
      found' = found ++ new
      /\ NoDup new
      /\ (forall id, id ∈ new ->
            length (heap st) <= id /\ is_Some (heap_name (heap st') id))
      /\ (forall nm,
            services st' !! nm
            = match services st !! nm with
              | Some x => Some x
              | None => first_named (heap st') nm new
              end);
  wp_old :
    forall id svc, heap st !! id = Some svc ->
      exists svc' extra,
        heap st' !! id = Some svc'
        /\ descriptor svc' = descriptor svc
        /\ (forall nm, name_of svc = Some nm -> name_of svc' = Some nm)
        /\ files svc' = files svc ++ extra
        /\ (parent <> Some id -> extra = [])
        /\ (forall rel, rel ∈ extra ->
              kept_below (fs st) ignores p (root svc ++ rel));
  wp_new :
    forall id svc', heap st' !! id = Some svc' ->
      length (heap st) <= id ->
      kept_below (fs st) ignores p (descriptor svc')
      /\ (forall rel, rel ∈ files svc' ->
            kept_below (fs st) ignores p (root svc' ++ rel))
}.

(** The enclosing service, when there is one, is rooted at or above [p]. *)
Definition parent_above (p : path) (parent : option nat) (st : state)
    : Prop :=
  forall par, parent = Some par ->
    exists psvc t, heap st !! par = Some psvc /\ p = root psvc ++ t.

(** What the walk below one directory establishes. *)
Definition descend_ok (forge : Forge.t) (shallow : bool) (n : node) : Prop :=
  forall p parent ignores found st found' st',
    parent_above p parent st ->
    Discovery.descend E forge directory shallow p n parent ignores found st
    = (inr found', st') ->
    walk_post ignores p parent st found st' found'.

End WalkSpec.

(** The root of the git working tree around [directory], or [directory]
    itself outside any: where [search] stops collecting ancestors. *)
Definition gitroot_of (f : node) (directory : path) : path :=
  match search_parents f ".git" directory false with
  | None => directory
  | Some g => dirname g
  end.

(** Every registry entry is an object of the heap. *)
Definition registry_wf (st : state) : Prop :=
  forall nm x, services st !! nm = Some x -> x < length (heap st).



(** ** Concrete worlds *)

(** A service directory with two files; [gone] is listed nowhere on disk
    and [locked] cannot be read. *)
Definition fs_two_files : node :=
  Dir [("svc", Dir [("a", File "alpha"); ("b", File "beta");
                    ("locked", Unreadable EACCES)])].

(** A matcher for ignore files that hold plain names only: a path is
    matched when its last component is one of the lines (the behaviour of
    gitwildmatch on patterns without wildcard, slash or negation). *)
Definition match_plain_names (ignores : list string) (rel : string) : bool :=
  let name := List.last (split_on "/" rel EmptyString) EmptyString in
  existsb (fun line => String.eqb (strip line) name) ignores.

Definition kubernetes_doc : document :=
  [("apiVersion", "v1"); ("kind", "Service"); ("metadata", "{}")].

(** A toy [yamlutil.load]: the text [{] does not parse, a text starting
    with [apiVersion] is one Kubernetes document, the empty text holds no
    document, anything else is one document with the key [name]. *)
Definition toy_yaml (content : string) : yaml_result :=
  if String.eqb content "{" then ParserError
  else if String.eqb content "" then Loaded []
  else if String.prefix "apiVersion" content then Loaded [kubernetes_doc]
  else Loaded [[("name", content)]].

(** A toy descriptor loader: the descriptor text is the list of required
    names, one per line; the service is named after its directory. *)
Definition toy_info (name rendered : string) : load_outcome :=
  if String.eqb rendered "{" then LoadParserError "expected a mapping"
  else LoadOk {| info_name := None;
                 info_requires := ReqList (split rendered);
                 info_branches := [] |}.

(** A world where the service root [/repo/svc] is committed and clean,
    [/repo/dirty] has local changes, and no sibling repository exists on
    the remote. *)
Definition world : Collaborators := {|
  match_file := match_plain_names;
  yamlutil_load := toy_yaml;
  renders := fun _ content _ => content;
  service_info_load := toy_info;
  fnmatch := String.eqb;
  git_diff_quiet :=
    fun p => inr (if bool_decide (p = ["repo"; "svc"]) then 0%Z else 1%Z);
  git_log_oneline := fun _ => inr "3f2a9c1d initial import
";
  git_rev_parse := fun _ => "master
";
  gh_remote := fun _ => Some "https://github.com/org/app.git";
  gh_exists := fun _ => false;
  gh_clone := fun _ => inl (TaskError "clone failed")
|}.

Definition forge0 : Forge.t := {|
  Forge.base := [];
  Forge.branch := None;
  Forge.profile := None;
  Forge.profiles := {[ "default" := {| Forge.search_path := [] |} ]}
|}.

Definition fs_repo : node :=
  Dir [("repo", Dir [(".git", Dir []);
                     ("svc", Dir [("service.yaml", File "");
                                  ("main.py", File "print 1")]);
                     ("dirty", Dir [("service.yaml", File "");
                                    ("main.py", File "print 2")])]);
       ("plain", Dir [("service.yaml", File "");
                      ("k8s", Dir [("service.yaml",
                                    File "apiVersion: v1")])])].

Definition svc_at (descriptor : path) (files : list path) : Service := {|
  descriptor := descriptor; dockerfiles := []; files := files;
  _info := None; _version := None; shallow := false; gitroot := None;
  is_git_attr := false; branch := None; forgeroot := dirname descriptor
|}.

Definition st_repo : state := {|
  fs := fs_repo;
  services := ∅;
  heap := [svc_at ["repo"; "svc"; "service.yaml"] [["service.yaml"]; ["main.py"]];
           svc_at ["repo"; "dirty"; "service.yaml"] [["service.yaml"]; ["main.py"]];
           svc_at ["plain"; "service.yaml"] [["service.yaml"]]]
|}.

(** Three services under [/chain]: [A] requires [B], [B] requires [C],
    [C] requires nothing; [st_chain] is the state after discovering
    them. *)
Definition fs_chain : node :=
  Dir [("chain", Dir [("A", Dir [("service.yaml", File "B")]);
                      ("B", Dir [("service.yaml", File "C")]);
                      ("C", Dir [("service.yaml", File "")])])].

Definition st_empty (f : node) : state :=
  {| fs := f; services := ∅; heap := [] |}.

Definition st_chain : state :=
  snd (Discovery.search world forge0 ["chain"] false (st_empty fs_chain)).

(** Two descriptors that resolve to the same name [app]. *)
Definition fs_twins : node :=
  Dir [("w", Dir [("x", Dir [("app", Dir [("service.yaml", File "");
                                          ("one.py", File "1")])]);
                  ("y", Dir [("app", Dir [("service.yaml", File "other");
                                          ("two.py", File "2")])])])].

(** A service with ignore files at two levels: [secret] is ignored from
    the walk root down, [tmp] only inside [a]. *)
Definition fs_ignores : node :=
  Dir [("w", Dir [(".gitignore", File "secret
");
                  ("service.yaml", File "");
                  ("a", Dir [(".forgeignore", File "tmp
");
                             ("tmp", File "1");
                             ("keep", File "2");
                             ("secret", File "3");
                             ("deep", Dir [("tmp", File "4");
                                           ("secret", File "5");
                                           ("ok", File "6")])]);
                  ("b", Dir [("tmp", File "7");
                             ("secret", File "8")])])].

Definition st_twins : state :=
  snd (Discovery.search world forge0 ["w"] false (st_empty fs_twins)).

Definition st_ignores : state :=
  snd (Discovery.search world forge0 ["w"] false (st_empty fs_ignores)).




(** ** Further specification-side definitions *)


(** [s] holds no slash. *)
Fixpoint no_slash (s : string) : bool :=
  match s with
  | EmptyString => true
  | String c s' => negb (Ascii.eqb c "/") && no_slash s'
  end.


(** What a part of the walk does to the heap, apart from the lists of
    files: [flag] is the [shallow] argument of the search and [base] the
    number of objects when the search began.  Objects below [base] are
    left as they are, the list [found] gains the objects allocated, in
    the order of allocation, and no object gets a version. *)
Record walk_frame (flag : bool) (base : nat) (st : state)
    (found : list nat) (st' : state) (found' : list nat) : Prop := {
  fr_fs : fs st' = fs st;
  fr_len : length (heap st) <= length (heap st');
  fr_found :
    found' = found ++ seq (length (heap st))
                          (length (heap st') - length (heap st));
  fr_below : forall id, id < base -> heap st' !! id = heap st !! id;
  fr_keep :
    forall id svc, heap st !! id = Some svc ->
      exists svc', heap st' !! id = Some svc'
                   /\ shallow svc' = shallow svc
                   /\ _version svc' = _version svc;
  fr_created :
    forall id svc', heap st' !! id = Some svc' -> length (heap st) <= id ->
      shallow svc' = flag /\ _version svc' = None
}.

(** The enclosing service, when there is one, was allocated by this
    search. *)
Definition parent_fresh (base : nat) (parent : option nat) : Prop :=
  forall par, parent = Some par -> base <= par.


(** The remote [resolve] looks a dependency up at: the remote of the
    service with its last segment replaced by the name of the
    dependency. *)
Definition sibling_remote (url dep : string) : string :=
  let parts := split_on "/" url EmptyString in
  let prefix := String.concat "/" (removelast parts) in
  prefix +:+ "/" +:+ dep +:+ ".git".




(** The requirements the cached descriptor of an object lists, as
    [Service.requires] reads them; [None] before the descriptor is
    loaded. *)
Definition cached_requires (svc : Service) : option (list string) :=
  match _info svc with
  | Some i => Some (match info_requires i with
                    | ReqAbsent => []
                    | ReqString value => [value]
                    | ReqList value => value
                    end)
  | None => None
  end.

(** Every registered service has its descriptor loaded, and every
    name it requires is registered. *)
Definition closed (st : state) : Prop :=
  forall nm id, services st !! nm = Some id ->
    exists svc reqs,
      heap st !! id = Some svc /\ cached_requires svc = Some reqs
      /\ forall r, r ∈ reqs -> is_Some (services st !! r).

(** The names [dependencies] has to look at: the targets, and what a
    name already reached requires. *)
Inductive reaches (st : state) (targets : list string) : string -> Prop :=
| reaches_target (t : string) :
    t ∈ targets -> reaches st targets t
| reaches_step (n : string) (id : nat) (svc : Service)
    (reqs : list string) (r : string) :
    reaches st targets n -> services st !! n = Some id ->
    heap st !! id = Some svc -> cached_requires svc = Some reqs ->
    r ∈ reqs -> reaches st targets r.

(** The number of requirements an object lists. *)
Definition requires_count (svc : Service) : nat :=
  length (default [] (cached_requires svc)).

(** The requirements listed by the objects of [h] whose index, counted
    from [k], is not in [visited]. *)
Fixpoint weight (visited : gset nat) (k : nat) (h : list Service) : nat :=
  match h with
  | [] => 0
  | svc :: h' =>
      (if bool_decide (k ∈ visited) then 0 else requires_count svc)
      + weight visited (S k) h'
  end.

(** What holds of the lists of the loop of [dependencies] over a closed
    registry. *)
Record closure_inv (st : state) (targets : list string) (todo : list nat)
    (visited : gset nat) (added : list string) : Prop := {
  ci_todo :
    forall id, id ∈ todo ->
      exists n, reaches st targets n /\ services st !! n = Some id;
  ci_visited :
    forall id svc reqs r,
      id ∈ visited -> heap st !! id = Some svc ->
      cached_requires svc = Some reqs -> r ∈ reqs ->
      r ∈ targets \/ r ∈ added;
  ci_added : forall n, n ∈ added -> reaches st targets n /\ n ∉ targets;
  ci_nodup : NoDup added;
  ci_pending :
    forall n, n ∈ targets \/ n ∈ added ->
      exists id, services st !! n = Some id /\ (id ∈ todo \/ id ∈ visited)
}.


(** A service in the git tree [/r], found by a shallow search. *)
Definition svc_shallow (descriptor : path) : Service := {|
  descriptor := descriptor; dockerfiles := []; files := [];
  _info := None; _version := None; shallow := true; gitroot := Some ["r"];
  is_git_attr := true; branch := None; forgeroot := ["r"]
|}.


(** The clean service of [fs_repo] with one more entry, [locked], that
    cannot be read; [st_locked] lists it, [st_unlisted] lists a file
    [gone] that is not on disk. *)
Definition fs_locked : node :=
  Dir [("repo", Dir [(".git", Dir []);
                     ("svc", Dir [("service.yaml", File "");
                                  ("main.py", File "print 1");
                                  ("locked", Unreadable EACCES)])])].

Definition st_locked : state := {|
  fs := fs_locked;
  services := ∅;
  heap := [svc_at ["repo"; "svc"; "service.yaml"]
             [["service.yaml"]; ["main.py"]; ["locked"]]]
|}.


(** * Properties *)

(** ** Strings *)

Lemma app_cons (c : ascii) (s t : string) :
  String c s +:+ t = String c (s +:+ t).
Proof. reflexivity. Qed.

Lemma app_empty_l (s : string) : EmptyString +:+ s = s.
Proof. reflexivity. Qed.

Lemma app_empty_r (s : string) : s +:+ EmptyString = s.
Proof. induction s as [|c s IH]; [reflexivity|]. now rewrite app_cons, IH. Qed.

Lemma app_assoc_s (s t u : string) : (s +:+ t) +:+ u = s +:+ (t +:+ u).
Proof.
  induction s as [|c s IH]; [reflexivity|].
  now rewrite !app_cons, IH.
Qed.





(** ** Content hashing *)

(** Settles [Forall (tolerated fs root) files] on a concrete tree by
    reading each file. *)
Ltac solve_tolerated :=
  repeat (first [apply List.Forall_nil | apply List.Forall_cons]);
  intros ? He; vm_compute in He;
  first [discriminate He | injection He as <-; reflexivity].

Lemma file_records_cons (fs : node) (root : path) (name : path)
    (files : list path) :
  file_records fs root (name :: files)
  = file_record fs root name +:+ file_records fs root files.
Proof.
  unfold file_records. simpl.
  destruct (map (file_record fs root) files) eqn:Hm.
  - simpl. now rewrite app_empty_r.
  - reflexivity.
Qed.


Lemma shafiles_loop_tolerated (fs : node) (root : path) (files : list path)
    (result : string) :
  Forall (tolerated fs root) files ->
  shafiles_loop fs root files result
  = inr (result +:+ file_records fs root files).
Proof.
  revert result. induction files as [|name files IH]; intros result Hall.
  - simpl. unfold file_records. simpl. now rewrite app_empty_r.
  - inversion Hall as [|? ? Hname Hrest]; subst.
    rewrite file_records_cons. simpl. unfold file_record, update.
    destruct (open_read fs (root ++ name)) as [e|data] eqn:Hread.
    + rewrite (Hname e Hread). simpl.
      rewrite IH by assumption. now rewrite !app_assoc_s.
    + rewrite IH by assumption. now rewrite !app_assoc_s.
Qed.

Lemma shafiles_loop_raises (fs : node) (root : path) (pre : list path)
    (name : path) (post : list path) (e : Z) (result : string) :
  Forall (tolerated fs root) pre ->
  open_read fs (root ++ name) = inl e -> e <> ENOENT ->
  shafiles_loop fs root (pre ++ name :: post) result = inl (IOError e).
Proof.
  revert result. induction pre as [|p pre IH]; intros result Hall Hread Hne.
  - simpl. rewrite Hread.
    destruct (e =? ENOENT)%Z eqn:He; [|reflexivity].
    apply Z.eqb_eq in He. contradiction.
  - inversion Hall as [|? ? Hp Hrest]; subst. simpl.
    destruct (open_read fs (root ++ p)) as [e'|data] eqn:Hp'.
    + rewrite (Hp e' Hp'). simpl. now apply IH.
    + now apply IH.
Qed.

Lemma shafiles_input_tolerated (fs : node) (root : path) (files : list path) :
  Forall (tolerated fs root) files ->
  shafiles_input fs root files
  = inr ("files " +:+ str_of_nat (length files) +:+ NUL
         +:+ file_records fs root files).
Proof.
  intros Hall. unfold shafiles_input, update, sha1_new.
  rewrite shafiles_loop_tolerated by assumption.
  now rewrite app_empty_l, !app_assoc_s.
Qed.

Lemma shafiles_loop_ext (fs1 fs2 : node) (root1 root2 : path)
    (files : list path) (result : string) :
  (forall name, name ∈ files ->
     open_read fs1 (root1 ++ name) = open_read fs2 (root2 ++ name)) ->
  shafiles_loop fs1 root1 files result = shafiles_loop fs2 root2 files result.
Proof.
  revert result. induction files as [|name files IH]; intros result Hsame.
  - reflexivity.
  - simpl. rewrite (Hsame name) by apply list_elem_of_here.
    assert (Hrest : forall n, n ∈ files ->
              open_read fs1 (root1 ++ n) = open_read fs2 (root2 ++ n)).
    { intros n Hn. apply Hsame. now apply list_elem_of_further. }
    destruct (open_read fs2 (root2 ++ name)) as [e|data].
    + destruct (e =? ENOENT)%Z; [now apply IH | reflexivity].
    + now apply IH.
Qed.

(** C7: hashing a file list completes when every listed file can be read
    or is missing ([ENOENT]); a missing file adds its header and no
    content; the first listed file whose read fails with any other
    [errno] makes [shafiles] raise that [IOError]. *)
Theorem shafiles_skips_missing_only (fs : node) (root : path)
    (files : list path) :
  (Forall (tolerated fs root) files ->
   shafiles fs root files
   = inr (hexdigest ("files " +:+ str_of_nat (length files) +:+ NUL
                     +:+ file_records fs root files)))
  /\ (forall name, open_read fs (root ++ name) = inl ENOENT ->
      file_record fs root name = "file " +:+ render name +:+ NUL)
  /\ (forall pre name post e,
      files = pre ++ name :: post ->
      Forall (tolerated fs root) pre ->
      open_read fs (root ++ name) = inl e -> e <> ENOENT ->
      shafiles fs root files = inl (IOError e)).
Proof.
  split; [|split].
  - intros Hall. unfold shafiles.
    now rewrite shafiles_input_tolerated.
  - intros name Hread. unfold file_record. now rewrite Hread.
  - intros pre name post e -> Hpre Hread Hne.
    unfold shafiles, shafiles_input.
    now rewrite (shafiles_loop_raises fs root pre name post e).
Qed.

Lemma shafiles_skips_missing_only_witness :
  shafiles fs_two_files ["svc"] [["a"]; ["gone"]; ["b"]]
  = inr (hexdigest ("files " +:+ str_of_nat 3 +:+ NUL
           +:+ file_records fs_two_files ["svc"] [["a"]; ["gone"]; ["b"]]))
  /\ file_record fs_two_files ["svc"] ["gone"] = "file " +:+ "gone" +:+ NUL
  /\ shafiles fs_two_files ["svc"] [["a"]; ["locked"]; ["b"]]
     = inl (IOError EACCES).
Proof.
  split; [|split].
  - apply (proj1 (shafiles_skips_missing_only fs_two_files ["svc"]
                    [["a"]; ["gone"]; ["b"]])).
    solve_tolerated.
  - apply (proj1 (proj2 (shafiles_skips_missing_only fs_two_files ["svc"] []))
             ["gone"]).
    reflexivity.
  - apply (proj2 (proj2 (shafiles_skips_missing_only fs_two_files ["svc"]
                           [["a"]; ["locked"]; ["b"]]))
             [["a"]] ["locked"] [["b"]] EACCES).
    + reflexivity.
    + solve_tolerated.
    + reflexivity.
    + discriminate.
Defined.





(** The digests themselves differ on this input. *)
Example missing_file_changes_digest :
  shafiles fs_two_files ["svc"] [["a"]; ["gone"]; ["b"]]
  <> shafiles fs_two_files ["svc"] [["a"]; ["b"]].
Proof. vm_compute. discriminate. Qed.

(** C3 as stated fails: the same two files listed in the other order hash
    to another digest. *)
Lemma shafiles_depends_on_order :
  [["a"]; ["b"]] ≡ₚ [["b"]; ["a"]]
  /\ shafiles fs_two_files ["svc"] [["a"]; ["b"]]
     <> shafiles fs_two_files ["svc"] [["b"]; ["a"]].
Proof.
  split.
  - apply perm_swap.
  - vm_compute. discriminate.
Qed.

(** C3, amended: the content hash is a function of the recorded list, in
    its recorded order, and of what reading each listed file yields; the
    same list over the same contents gives the same hash, on any root
    and filesystem. *)
Theorem shafiles_same_list_same_hash (fs1 fs2 : node) (root1 root2 : path)
    (files : list path) :
  (forall name, name ∈ files ->
     open_read fs1 (root1 ++ name) = open_read fs2 (root2 ++ name)) ->
  shafiles fs1 root1 files = shafiles fs2 root2 files.
Proof.
  intros Hsame. unfold shafiles, shafiles_input.
  now rewrite (shafiles_loop_ext fs1 fs2 root1 root2).
Qed.

Lemma shafiles_same_list_same_hash_witness :
  shafiles fs_two_files ["svc"] [["a"]; ["b"]]
  = shafiles (Dir [("a", File "alpha"); ("b", File "beta")]) []
      [["a"]; ["b"]].
Proof.
  apply (shafiles_same_list_same_hash fs_two_files
           (Dir [("a", File "alpha"); ("b", File "beta")]) ["svc"] []
           [["a"]; ["b"]]).
  intros name Hin.
  apply elem_of_cons in Hin as [-> | Hin]; [reflexivity|].
  apply elem_of_cons in Hin as [-> | Hin]; [reflexivity|].
  inversion Hin.
Defined.

(** ** Version from source control *)

Lemma split_go_word (h t : string) (cur : option string) :
  no_space h = true -> blank_start t = true ->
  h <> EmptyString \/ cur <> None ->
  hd EmptyString (split_go (h +:+ t) cur)
  = match cur with Some w => w | None => EmptyString end +:+ h.
Proof.
  revert cur. induction h as [|c h IH]; intros cur Hh Ht Hne.
  - rewrite app_empty_l, app_empty_r.
    destruct cur as [w|]; [|destruct Hne; congruence].
    destruct t as [|d t]; [reflexivity|].
    simpl in Ht. simpl. now rewrite Ht.
  - simpl in Hh. apply andb_true_iff in Hh as [Hc Hh].
    apply negb_true_iff in Hc.
    rewrite app_cons. simpl. rewrite Hc.
    rewrite IH; [|assumption|assumption|right; discriminate].
    destruct cur as [w|].
    + now rewrite app_assoc_s.
    + reflexivity.
Qed.

Lemma rstrip_word (h t : string) :
  no_space h = true -> blank_start t = true ->
  exists t', rstrip (h +:+ t) = h +:+ t' /\ blank_start t' = true.
Proof.
  induction h as [|c h IH]; intros Hh Ht.
  - rewrite app_empty_l. exists (rstrip t). split; [reflexivity|].
    destruct t as [|d t]; [reflexivity|].
    simpl in Ht. simpl. rewrite Ht. simpl.
    destruct (String.eqb (rstrip t) ""); [reflexivity|assumption].
  - simpl in Hh. apply andb_true_iff in Hh as [Hc Hh].
    apply negb_true_iff in Hc.
    destruct (IH Hh Ht) as (t' & Heq & Hb).
    exists t'. split; [|assumption].
    rewrite !app_cons. simpl. rewrite Hc. simpl. now rewrite Heq.
Qed.

(** The first field of a line [<hash> <subject>] is the hash. *)
Lemma oneline_hash (h rest : string) :
  no_space h = true -> h <> EmptyString -> blank_start rest = true ->
  nonempty (strip (h +:+ rest)) = true
  /\ hd EmptyString (split (strip (h +:+ rest))) = h.
Proof.
  intros Hh Hne Hrest.
  assert (Hl : lstrip (h +:+ rest) = h +:+ rest).
  { destruct h as [|c h]; [congruence|].
    simpl in Hh. apply andb_true_iff in Hh as [Hc _].
    apply negb_true_iff in Hc. rewrite app_cons. simpl. now rewrite Hc. }
  unfold strip. rewrite Hl.
  destruct (rstrip_word h rest Hh Hrest) as (t' & -> & Hb).
  split.
  - destruct h as [|c h]; [congruence|]. reflexivity.
  - unfold split. rewrite split_go_word; auto.
Qed.

Section Version.

Context (E : Collaborators).

Lemma get_service_lookup (st : state) (id : nat) (svc : Service) :
  heap st !! id = Some svc -> get_service id st = (inr svc, st).
Proof. intros H. unfold get_service. now rewrite H. Qed.

(** What [Service.version] does on first use. *)
Lemma version_first_use (st : state) (id : nat) (svc : Service) :
  heap st !! id = Some svc ->
  _version svc = None ->
  fst (Service.version E id st)
  = match shafiles (fs st) (root svc) (files svc) with
    | inl e => inl e
    | inr digest => get_version E (fs st) (root svc) (digest +:+ ".sha")
    end.
Proof.
  intros Hsvc Hcache. unfold Service.version, bind.
  rewrite (get_service_lookup _ _ _ Hsvc), Hcache. unfold gets, lift.
  destruct (shafiles (fs st) (root svc) (files svc)) as [e|digest];
    [reflexivity|].
  destruct (get_version E (fs st) (root svc) (digest +:+ ".sha"));
    reflexivity.
Qed.

(** C6: for a service whose version is not cached yet, the content
    hash of its listed files is computed first, and when that raises,
    [version] raises the same error, whatever git says.  When the files
    hash to [digest], the version is [<hash>.git] when the root is in a
    git working tree, [git diff --quiet HEAD .] exits with 0 and
    [git log -n1 --format=oneline -- .] prints a line, [<hash>] being
    the first field of that line; it is [<digest>.sha] outside git,
    when [git diff] exits with another expected status, and when
    [git log] prints nothing; and when a git command ends with a status
    that is not expected, [version] raises what [sh] raises. *)
Theorem version_form (st : state) (id : nat) (svc : Service) :
  heap st !! id = Some svc ->
  _version svc = None ->
  (forall e, shafiles (fs st) (root svc) (files svc) = inl e ->
     fst (Service.version E id st) = inl e)
  /\ (forall digest,
        shafiles (fs st) (root svc) (files svc) = inr digest ->
        (forall output,
           is_git (fs st) (root svc) = true ->
           git_diff_quiet E (root svc) = inr 0%Z ->
           git_log_oneline E (root svc) = inr output ->
           strip output <> EmptyString ->
           fst (Service.version E id st)
           = inr (hd EmptyString (split (strip output)) +:+ ".git")
           /\ forall h subject,
                no_space h = true -> h <> EmptyString ->
                output = h +:+ " " +:+ subject ->
                fst (Service.version E id st) = inr (h +:+ ".git"))
        /\ (is_git (fs st) (root svc) = false
            \/ (exists code, git_diff_quiet E (root svc) = inr code
                             /\ code <> 0%Z)
            \/ (git_diff_quiet E (root svc) = inr 0%Z
                /\ exists output,
                     git_log_oneline E (root svc) = inr output
                     /\ strip output = EmptyString) ->
            fst (Service.version E id st) = inr (digest +:+ ".sha"))
        /\ (forall e,
              is_git (fs st) (root svc) = true ->
              git_diff_quiet E (root svc) = inl e
              \/ (git_diff_quiet E (root svc) = inr 0%Z
                  /\ git_log_oneline E (root svc) = inl e) ->
              fst (Service.version E id st) = inl e)).
Proof.
  intros Hsvc Hcache. rewrite (version_first_use st id svc Hsvc Hcache).
  split; [intros e ->; reflexivity|].
  intros digest ->. unfold get_version. split; [|split].
  - intros output Hgit Hclean Hlog Hline.
    rewrite Hgit, Hclean, Hlog. simpl.
    assert (Hne : nonempty (strip output) = true).
    { unfold nonempty. apply negb_true_iff. now apply String.eqb_neq. }
    rewrite Hne. split; [reflexivity|].
    intros h subject Hh Hnz ->.
    destruct (oneline_hash h (" " +:+ subject) Hh Hnz eq_refl) as [_ ->].
    reflexivity.
  - intros [Hgit | [(code & Hcode & Hdirty) | (Hclean & output & Hlog & Hline)]].
    + now rewrite Hgit.
    + destruct (is_git (fs st) (root svc)); [|reflexivity].
      rewrite Hcode. apply Z.eqb_neq in Hdirty. now rewrite Hdirty.
    + destruct (is_git (fs st) (root svc)); [|reflexivity].
      rewrite Hclean, Hlog, Hline. reflexivity.
  - intros e Hgit [Hdiff | [Hclean Hlog]]; rewrite Hgit.
    + now rewrite Hdiff.
    + now rewrite Hclean, Hlog.
Qed.

End Version.

(** C6 as stated fails: the root is in a git working tree that is
    clean, a commit touches it, and yet [version] does not answer
    [<hash>.git] but raises, because a listed file cannot be read and
    the content hash is computed before git is asked. *)
Lemma version_raises_on_unreadable_file :
  is_git (fs st_locked) ["repo"; "svc"] = true
  /\ git_diff_quiet world ["repo"; "svc"] = inr 0%Z
  /\ git_log_oneline world ["repo"; "svc"] = inr "3f2a9c1d initial import
"
  /\ heap st_locked !! 0
     = Some (svc_at ["repo"; "svc"; "service.yaml"]
               [["service.yaml"]; ["main.py"]; ["locked"]])
  /\ Service.version world 0 st_locked = (inl (IOError EACCES), st_locked).
Proof. repeat split; vm_compute; reflexivity. Qed.

Lemma version_form_witness :
  fst (Service.version world 0 st_repo) = inr ("3f2a9c1d" +:+ ".git")
  /\ fst (Service.version world 1 st_repo)
     = inr ("45e7c99819300057f2cebab984b11b9c1b7819a9" +:+ ".sha")
  /\ fst (Service.version world 0 st_locked) = inl (IOError EACCES).
Proof.
  split; [|split].
  - assert (Hsha : shafiles (fs st_repo) ["repo"; "svc"]
                     [["service.yaml"]; ["main.py"]]
                   = inr "e74332cb932db4a49f490072a001f9dbe7f4ff42")
      by (vm_compute; reflexivity).
    destruct (version_form world st_repo 0 _ eq_refl eq_refl)
      as [_ Hhashed].
    destruct (Hhashed _ Hsha) as (Hclean & _ & _).
    destruct (Hclean "3f2a9c1d initial import
") as [_ Hhash].
    + vm_compute. reflexivity.
    + reflexivity.
    + reflexivity.
    + vm_compute. discriminate.
    + apply (Hhash "3f2a9c1d" "initial import
"); [reflexivity | discriminate | reflexivity].
  - assert (Hsha : shafiles (fs st_repo) ["repo"; "dirty"]
                     [["service.yaml"]; ["main.py"]]
                   = inr "45e7c99819300057f2cebab984b11b9c1b7819a9")
      by (vm_compute; reflexivity).
    destruct (version_form world st_repo 1 _ eq_refl eq_refl)
      as [_ Hhashed].
    destruct (Hhashed _ Hsha) as (_ & Hother & _).
    apply Hother. right. left. exists 1%Z.
    split; [vm_compute; reflexivity|discriminate].
  - destruct (version_form world st_locked 0 _ eq_refl eq_refl)
      as [Hraise _].
    apply Hraise. vm_compute. reflexivity.
Defined.

(** ** Descriptor classification *)

Section Classification.

Context (E : Collaborators) (forge : Forge.t).

Lemma is_service_descriptor_loaded (f : node) (p : path)
    (content : string) :
  read_file f p = inr content ->
  is_service_descriptor E f p
  = inr (match yamlutil_load E content with
         | ParserError | ScannerError => true
         | Loaded [] => true
         | Loaded (first :: _) =>
             negb (has_key "apiVersion" first && has_key "kind" first
                   && has_key "metadata" first)
         end).
Proof.
  intros Hread. unfold is_service_descriptor. rewrite Hread.
  destruct (yamlutil_load E content) as [| |[|first rest]]; try reflexivity.
  now destruct (has_key "apiVersion" first && has_key "kind" first
                && has_key "metadata" first).
Qed.

(** C5: a readable [service.yaml] is a genuine descriptor exactly when
    loading it raises [ParserError] or [ScannerError], or it loads and
    its first document does not hold all of [apiVersion], [kind] and
    [metadata]; when the first document holds the three keys the walk
    creates no service for it: the descriptor block leaves the
    enclosing service, the list [found], the registry and the heap as
    they were. *)
Theorem descriptor_classification (f : node) (p : path) (content : string) :
  read_file f p = inr content ->
  (is_service_descriptor E f p = inr true <->
     yamlutil_load E content = ParserError
     \/ yamlutil_load E content = ScannerError
     \/ exists objs, yamlutil_load E content = Loaded objs
                     /\ ~ kubernetes_shaped objs)
  /\ (is_service_descriptor E f p = inr false <->
        exists objs, yamlutil_load E content = Loaded objs
                     /\ kubernetes_shaped objs)
  /\ (forall shallow dir names parent found st,
        fs st = f -> p = dir ++ ["service.yaml"] ->
        (exists objs, yamlutil_load E content = Loaded objs
                      /\ kubernetes_shaped objs) ->
        Discovery.on_descriptor E forge shallow dir names parent found st
        = (inr (parent, found), st)).
Proof.
  intros Hread.
  pose proof (is_service_descriptor_loaded f p content Hread) as Hcls.
  assert (Hfalse : is_service_descriptor E f p = inr false <->
            exists objs, yamlutil_load E content = Loaded objs
                         /\ kubernetes_shaped objs).
  { rewrite Hcls. split.
    - intros H.
      destruct (yamlutil_load E content) as [| |[|first rest]];
        try discriminate.
      exists (first :: rest). split; [reflexivity|].
      exists first, rest. split; [reflexivity|].
      injection H as H. apply negb_false_iff in H.
      apply andb_true_iff in H as [H H3].
      apply andb_true_iff in H as [H1 H2]. auto.
    - intros (objs & -> & first & rest & -> & H1 & H2 & H3).
      now rewrite H1, H2, H3. }
  split; [|split].
  - rewrite Hcls. split.
    + intros H.
      destruct (yamlutil_load E content) as [| |objs] eqn:Hload; auto.
      right. right. exists objs. split; [reflexivity|].
      intros (first & rest & -> & H1 & H2 & H3).
      rewrite H1, H2, H3 in H. discriminate.
    + intros [-> | [-> | (objs & -> & Hnot)]]; try reflexivity.
      destruct objs as [|first rest]; [reflexivity|].
      f_equal. apply negb_true_iff.
      destruct (has_key "apiVersion" first) eqn:H1;
        destruct (has_key "kind" first) eqn:H2;
        destruct (has_key "metadata" first) eqn:H3; try reflexivity.
      exfalso. apply Hnot. exists first, rest. auto.
  - exact Hfalse.
  - intros shallow dir names parent found st Hfs -> Hk8s.
    apply Hfalse in Hk8s.
    unfold Discovery.on_descriptor.
    destruct (bool_decide ("service.yaml" ∈ names)); [|reflexivity].
    unfold bind, gets, lift. rewrite Hfs, Hk8s. reflexivity.
Qed.

End Classification.

Lemma descriptor_classification_witness :
  is_service_descriptor world fs_repo ["plain"; "k8s"; "service.yaml"]
  = inr false
  /\ is_service_descriptor world fs_repo ["plain"; "service.yaml"] = inr true
  /\ Discovery.on_descriptor world forge0 false ["plain"; "k8s"]
       ["service.yaml"] None [] st_repo
     = (inr (None, []), st_repo).
Proof.
  pose proof (descriptor_classification world forge0 fs_repo
                ["plain"; "k8s"; "service.yaml"] "apiVersion: v1" eq_refl)
    as (_ & Hfalse & Hwalk).
  pose proof (descriptor_classification world forge0 fs_repo
                ["plain"; "service.yaml"] "" eq_refl)
    as (Htrue & _ & _).
  assert (Hk8s : exists objs,
             yamlutil_load world "apiVersion: v1" = Loaded objs
             /\ kubernetes_shaped objs).
  { exists [kubernetes_doc]. split; [reflexivity|].
    exists kubernetes_doc, []. repeat split; reflexivity. }
  split; [|split].
  - apply Hfalse. exact Hk8s.
  - apply Htrue. right. right. exists []. split; [reflexivity|].
    intros (first & rest & Hnil & _). discriminate.
  - apply (Hwalk false ["plain"; "k8s"] ["service.yaml"] None []
             st_repo eq_refl eq_refl Hk8s).
Defined.

(** ** Dependencies: precondition and the three-service chain *)

Section Dependencies.

Context (E : Collaborators) (forge : Forge.t).

Lemma getitem_present (st : state) (t : string) (s : nat) :
  services st !! t = Some s -> Discovery.getitem t st = (inr s, st).
Proof.
  intros H. unfold Discovery.getitem, bind, gets. now rewrite H.
Qed.

Lemma getitem_absent (st : state) (t : string) :
  services st !! t = None -> Discovery.getitem t st = (inl (KeyError t), st).
Proof.
  intros H. unfold Discovery.getitem, bind, gets. now rewrite H.
Qed.

(** The comprehension [[self.services[t] for t in targets]] raises
    [KeyError] at the first target that is not registered, and does not
    touch the state. *)
Lemma lookup_targets_raises (st : state) (targets : list string) :
  (exists t, t ∈ targets /\ services st !! t = None) ->
  exists t, t ∈ targets /\ services st !! t = None
            /\ mapM Discovery.getitem targets st = (inl (KeyError t), st).
Proof.
  induction targets as [|t targets IH]; intros (u & Hin & Hu).
  - inversion Hin.
  - destruct (services st !! t) as [s|] eqn:Ht.
    + assert (Hrest : exists t', t' ∈ targets /\ services st !! t' = None).
      { apply elem_of_cons in Hin as [-> | Hin]; [congruence|eauto]. }
      destruct (IH Hrest) as (t' & Hin' & Hnone & Hrun).
      exists t'. split; [now apply list_elem_of_further|].
      split; [assumption|].
      simpl. unfold bind. rewrite (getitem_present _ _ _ Ht).
      fold (@bind nat). unfold bind in *. now rewrite Hrun.
    + exists t. split; [apply list_elem_of_here|]. split; [assumption|].
      simpl. unfold bind. now rewrite (getitem_absent _ _ Ht).
Qed.

(** C10: with no target [dependencies] raises [IndexError], and with a
    target that is not in the registry it raises [KeyError] for such a
    target; in both cases the state is the one it was called in, so
    nothing was traversed or resolved, and no list is returned. *)
Theorem dependencies_precondition (fuel : nat) (targets : list string)
    (st : state) :
  (targets = [] ->
   Discovery.dependencies E forge fuel targets st = (inl IndexError, st))
  /\ ((exists t, t ∈ targets /\ services st !! t = None) ->
      exists t, t ∈ targets /\ services st !! t = None
                /\ Discovery.dependencies E forge fuel targets st
                   = (inl (KeyError t), st)).
Proof.
  split.
  - intros ->. reflexivity.
  - intros Hmissing.
    destruct (lookup_targets_raises st targets Hmissing)
      as (t & Hin & Hnone & Hrun).
    exists t. split; [assumption|]. split; [assumption|].
    unfold Discovery.dependencies, bind. now rewrite Hrun.
Qed.

Lemma pop_snoc {A} (l : list A) (x : A) :
  Discovery.pop (l ++ [x]) = Some (x, l).
Proof.
  unfold Discovery.pop. rewrite rev_app_distr. simpl.
  now rewrite rev_involutive.
Qed.

Lemma pop_nil {A} : Discovery.pop (@nil A) = None.
Proof. reflexivity. Qed.

(** One requirement that is registered: nothing is resolved. *)
Lemma for_requires_registered (root : nat) (targets : list string)
    (r : string) (rest : list string) (todo : list nat)
    (added missing : list string) (st : state) (s : nat) :
  services st !! r = Some s ->
  Discovery.for_requires E forge root targets (r :: rest) todo added
    missing st
  = Discovery.for_requires E forge root targets rest (todo ++ [s])
      (if negb (bool_decide (r ∈ targets)) && negb (bool_decide (r ∈ added))
       then added ++ [r] else added)
      missing st.
Proof.
  intros Hr. simpl. unfold bind, gets. simpl. rewrite Hr.
  rewrite bool_decide_eq_true_2 by eauto. simpl.
  unfold ret. simpl. rewrite Hr. reflexivity.
Qed.

Lemma while_todo_visit (fuel root : nat) (targets : list string)
    (stack todo : list nat) (svc : nat) (visited : gset nat)
    (added missing : list string) (st : state) (reqs : list string) :
  Discovery.pop stack = Some (svc, todo) ->
  svc ∉ visited ->
  Service.requires E svc st = (inr reqs, st) ->
  Discovery.while_todo E forge (S fuel) root targets stack
    visited added missing st
  = match Discovery.for_requires E forge root targets reqs todo added
            missing st with
    | (inl e, st') => (inl e, st')
    | (inr (todo', added', missing'), st') =>
        Discovery.while_todo E forge fuel root targets todo'
          ({[svc]} ∪ visited) added' missing' st'
    end.
Proof.
  intros Hpop Hfresh Hreq. simpl. rewrite Hpop.
  rewrite bool_decide_eq_false_2 by assumption.
  unfold bind. rewrite Hreq.
  destruct (Discovery.for_requires E forge root targets reqs todo added
              missing st) as [[e|[[todo' added'] missing']] st'];
    reflexivity.
Qed.

(** C1: in a registry where [a] requires [b], [b] requires [c] and [c]
    requires nothing, [dependencies [a]] returns, once the loop bound
    allows its three iterations, the list [[b; c]]: it holds [b] and
    [c], has no duplicate and holds no target.  The registry and the
    heap are not changed. *)
Theorem dependencies_chain (st : state) (a b c : string) (ia ib ic : nat)
    (fuel : nat) :
  services st !! a = Some ia ->
  services st !! b = Some ib ->
  services st !! c = Some ic ->
  Service.requires E ia st = (inr [b], st) ->
  Service.requires E ib st = (inr [c], st) ->
  Service.requires E ic st = (inr [], st) ->
  3 <= fuel ->
  exists added,
    Discovery.dependencies E forge fuel [a] st = (inr added, st)
    /\ added = [b; c]
    /\ b ∈ added /\ c ∈ added
    /\ NoDup added
    /\ (forall x, x ∈ added -> x ∉ [a]).
Proof.
  intros Ha Hb Hc Hra Hrb Hrc Hfuel.
  assert (Hbc : b <> c).
  { intros ->. rewrite Hb in Hc. injection Hc as ->. congruence. }
  assert (Hab : a <> b).
  { intros ->. rewrite Ha in Hb. injection Hb as ->.
    assert (b = c) by congruence. contradiction. }
  assert (Hac : a <> c).
  { intros ->. rewrite Ha in Hc. injection Hc as ->. congruence. }
  assert (Hiab : ia <> ib).
  { intros ->. assert (b = c) by congruence. contradiction. }
  assert (Hiac : ia <> ic) by (intros ->; congruence).
  assert (Hibc : ib <> ic) by (intros ->; congruence).
  exists [b; c].
  split.
  - destruct fuel as [|[|[|fuel]]]; try lia.
    assert (Hmap : mapM Discovery.getitem [a] st = (inr [ia], st)).
    { simpl. unfold bind. now rewrite (getitem_present _ _ _ Ha). }
    assert (Hloop : Discovery.while_todo E forge (S (S (S fuel))) ia [a] [ia]
                      ∅ [] [] st = (inr ([b; c], []), st)).
    2: { unfold Discovery.dependencies, bind. rewrite Hmap.
         fold (@bind (list string * list string) (list string)).
         unfold bind. now rewrite Hloop. }
    rewrite (while_todo_visit _ _ _ _ [] ia ∅ [] [] st [b]);
      [|reflexivity|set_solver|assumption].
    rewrite (for_requires_registered _ _ _ _ _ _ _ _ _ Hb).
    rewrite bool_decide_eq_false_2 by set_solver.
    rewrite bool_decide_eq_false_2 by set_solver.
    simpl Discovery.for_requires. unfold ret at 1.
    rewrite (while_todo_visit _ _ _ _ [] ib _ [b] [] st [c]);
      [|reflexivity|set_solver|assumption].
    rewrite (for_requires_registered _ _ _ _ _ _ _ _ _ Hc).
    rewrite bool_decide_eq_false_2 by set_solver.
    rewrite bool_decide_eq_false_2 by set_solver.
    simpl Discovery.for_requires. unfold ret at 1.
    rewrite (while_todo_visit _ _ _ _ [] ic _ [b; c] [] st []);
      [|reflexivity|set_solver|assumption].
    simpl Discovery.for_requires. unfold ret at 1.
    destruct fuel; reflexivity.
  - split; [reflexivity|].
    split; [set_solver|]. split; [set_solver|].
    split.
    + apply NoDup_cons. split; [set_solver|]. apply NoDup_singleton.
    + intros x Hx. set_solver.
Qed.

End Dependencies.

Lemma dependencies_precondition_witness :
  Discovery.dependencies world forge0 5 [] st_chain = (inl IndexError, st_chain)
  /\ exists t, t ∈ ["A"; "Z"] /\ services st_chain !! t = None
               /\ Discovery.dependencies world forge0 5 ["A"; "Z"] st_chain
                  = (inl (KeyError t), st_chain).
Proof.
  split.
  - apply (proj1 (dependencies_precondition world forge0 5 [] st_chain)).
    reflexivity.
  - apply (proj2 (dependencies_precondition world forge0 5 ["A"; "Z"] st_chain)).
    exists "Z". split.
    + apply list_elem_of_further, list_elem_of_here.
    + vm_compute. reflexivity.
Defined.

Lemma dependencies_chain_witness :
  exists added,
    Discovery.dependencies world forge0 3 ["A"] st_chain = (inr added, st_chain)
    /\ added = ["B"; "C"]
    /\ "B" ∈ added /\ "C" ∈ added
    /\ NoDup added
    /\ (forall x, x ∈ added -> x ∉ ["A"]).
Proof.
  apply (dependencies_chain world forge0 st_chain "A" "B" "C" 0 1 2 3).
  - vm_compute. reflexivity.
  - vm_compute. reflexivity.
  - vm_compute. reflexivity.
  - vm_compute. reflexivity.
  - vm_compute. reflexivity.
  - vm_compute. reflexivity.
  - lia.
Defined.

(** ** The monad *)

Lemma bind_inr {A B} (m : M A) (k : A -> M B) (st : state) (b : B)
    (st' : state) :
  bind m k st = (inr b, st') ->
  exists a st1, m st = (inr a, st1) /\ k a st1 = (inr b, st').
Proof.
  unfold bind. destruct (m st) as [[e|a] st1]; [discriminate|].
  intros H. eauto.
Qed.

Lemma ret_inr {A} (a b : A) (st st' : state) :
  ret a st = (inr b, st') -> b = a /\ st' = st.
Proof. unfold ret. intros H. injection H as <- <-. auto. Qed.

Lemma gets_inr {A} (f : state -> A) (b : A) (st st' : state) :
  gets f st = (inr b, st') -> b = f st /\ st' = st.
Proof. unfold gets. intros H. injection H as <- <-. auto. Qed.

Lemma lift_inr {A} (r : exn + A) (b : A) (st st' : state) :
  lift r st = (inr b, st') -> r = inr b /\ st' = st.
Proof. unfold lift. intros H. injection H as <- <-. auto. Qed.

Lemma modify_inr (f : state -> state) (u : unit) (st st' : state) :
  modify f st = (inr u, st') -> st' = f st.
Proof. unfold modify. intros H. injection H as _ <-. reflexivity. Qed.

Lemma get_service_inr (id : nat) (svc : Service) (st st' : state) :
  get_service id st = (inr svc, st') -> heap st !! id = Some svc /\ st' = st.
Proof.
  unfold get_service. destruct (heap st !! id) as [s|]; [|discriminate].
  intros H. injection H as <- <-. auto.
Qed.

(** Takes a successful run apart, one step at a time. *)
Tactic Notation "step_in" hyp(H) "as" ident(a) ident(st1) ident(H1) :=
  apply bind_inr in H as (a & st1 & H1 & H).

Ltac run_step H :=
  let a := fresh "a" in
  let st1 := fresh "st" in
  let H1 := fresh "Hstep" in
  apply bind_inr in H as (a & st1 & H1 & H).

(** ** Induction on directory trees *)

Lemma node_ind_nested (P : node -> Prop) :
  (forall c, P (File c)) ->
  (forall e, P (Unreadable e)) ->
  (forall cs, Forall (fun nc => P (snd nc)) cs -> P (Dir cs)) ->
  forall n, P n.
Proof.
  intros Hfile Hunread Hdir.
  fix IH 1. intros [c|e|cs].
  - apply Hfile.
  - apply Hunread.
  - apply Hdir. induction cs as [|[name c] cs IHcs].
    + constructor.
    + constructor; [apply IH | exact IHcs].
Qed.

(** ** The discovery walk *)

Lemma removelast_snoc {A} (l : list A) (x : A) : removelast (l ++ [x]) = l.
Proof. apply removelast_last. Qed.

Lemma first_named_nil (h : list Service) (nm : string) :
  first_named h nm [] = None.
Proof. reflexivity. Qed.

Lemma first_named_app (h : list Service) (nm : string) (l1 l2 : list nat) :
  first_named h nm (l1 ++ l2)
  = match first_named h nm l1 with
    | Some x => Some x
    | None => first_named h nm l2
    end.
Proof.
  unfold first_named. induction l1 as [|x l1 IH]; [reflexivity|].
  simpl. destruct (bool_decide (heap_name h x = Some nm)); auto.
Qed.

Lemma first_named_ext (h h' : list Service) (nm : string) (l : list nat) :
  (forall id, id ∈ l -> heap_name h' id = heap_name h id) ->
  first_named h' nm l = first_named h nm l.
Proof.
  unfold first_named. induction l as [|x l IH]; intros Hsame; [reflexivity|].
  simpl. rewrite (Hsame x) by apply list_elem_of_here.
  destruct (bool_decide (heap_name h x = Some nm)); [reflexivity|].
  apply IH. intros id Hid. apply Hsame. now apply list_elem_of_further.
Qed.

Lemma first_named_Some (h : list Service) (nm : string) (l : list nat)
    (id : nat) :
  first_named h nm l = Some id -> id ∈ l /\ heap_name h id = Some nm.
Proof.
  unfold first_named. intros H. apply find_some in H as [Hin Hb].
  split; [now apply list_elem_of_In|].
  now apply bool_decide_eq_true in Hb.
Qed.


Section Walk.

Context (E : Collaborators) (forge : Forge.t) (directory : path)
        (shallow : bool).

Local Abbreviation walk_post := (walk_post E directory).
Local Abbreviation kept_below := (kept_below E directory).
Local Abbreviation all_kept := (all_kept E directory).
Local Abbreviation kept := (Discovery.kept E directory).

Lemma walk_post_refl (ignores : list string) (p : path)
    (parent : option nat) (st : state) (found : list nat) :
  walk_post ignores p parent st found st found.
Proof.
  split.
  - reflexivity.
  - exists []. split; [now rewrite app_nil_r|]. split; [constructor|].
    split; [intros id Hid; inversion Hid|].
    intros nm. now destruct (services st !! nm).
  - intros id svc Hsvc. exists svc, []. rewrite app_nil_r.
    repeat split; auto. intros rel Hrel. inversion Hrel.
  - intros id svc' Hsvc Hlen. apply lookup_lt_Some in Hsvc. lia.
Qed.

Lemma walk_post_length (ignores : list string) (p : path)
    (parent : option nat) (st : state) (found : list nat) (st' : state)
    (found' : list nat) :
  walk_post ignores p parent st found st' found' ->
  length (heap st) <= length (heap st').
Proof.
  intros H. destruct (heap st) as [|s0 h0] eqn:Hh; [simpl; lia|].
  assert (Hlast : is_Some (heap st !! (length (heap st) - 1))).
  { apply lookup_lt_is_Some. rewrite Hh. simpl. lia. }
  destruct Hlast as [svc Hsvc].
  destruct (wp_old _ _ _ _ _ _ _ _ _ H _ _ Hsvc) as (svc' & extra & Hl & _).
  apply lookup_lt_Some in Hl. rewrite Hh in Hl. simpl in *. lia.
Qed.

Lemma name_of_same (svc svc' : Service) :
  descriptor svc' = descriptor svc -> _info svc' = _info svc ->
  name_of svc' = name_of svc.
Proof. intros Hd Hi. unfold name_of, root. now rewrite Hd, Hi. Qed.

Lemma walk_post_trans (ignores : list string) (p : path)
    (parent parent' : option nat) (st : state) (f0 : list nat)
    (st1 : state) (f1 : list nat) (st2 : state) (f2 : list nat) :
  walk_post ignores p parent st f0 st1 f1 ->
  walk_post ignores p parent' st1 f1 st2 f2 ->
  (parent' = parent \/ exists id, parent' = Some id /\ length (heap st) <= id) ->
  walk_post ignores p parent st f0 st2 f2.
Proof.
  intros H1 H2 Hparent.
  pose proof (walk_post_length _ _ _ _ _ _ _ H1) as Hlen1.
  destruct H1 as [Hfs1 (new1 & Hf1 & Hnd1 & Hids1 & Hreg1) Hold1 Hnew1].
  destruct H2 as [Hfs2 (new2 & Hf2 & Hnd2 & Hids2 & Hreg2) Hold2 Hnew2].
  assert (Hstable : forall id, id ∈ new1 ->
            heap_name (heap st2) id = heap_name (heap st1) id).
  { intros id Hid. destruct (Hids1 id Hid) as [_ [nm Hnm]].
    unfold heap_name in *.
    destruct (heap st1 !! id) as [svc1|] eqn:Hsvc1; [|discriminate].
    destruct (Hold2 id svc1 Hsvc1) as (svc2 & extra & -> & _ & Hname & _).
    rewrite Hnm. now apply Hname. }
  split.
  - congruence.
  - exists (new1 ++ new2). split; [subst; now rewrite app_assoc|].
    split.
    { apply NoDup_app. split; [assumption|]. split; [|assumption].
      intros id Hid1 Hid2.
      destruct (Hids1 id Hid1) as [_ [nm Hnm]].
      destruct (Hids2 id Hid2) as [Hge _].
      unfold heap_name in Hnm.
      destruct (heap st1 !! id) eqn:Hl; [|discriminate].
      apply lookup_lt_Some in Hl. lia. }
    split.
    { intros id Hid. apply elem_of_app in Hid as [Hid|Hid].
      - destruct (Hids1 id Hid) as [Hge Hsome]. split; [assumption|].
        now rewrite Hstable.
      - destruct (Hids2 id Hid) as [Hge Hsome]. split; [lia|assumption]. }
    intros nm. rewrite Hreg2, Hreg1, first_named_app.
    rewrite (first_named_ext (heap st1) (heap st2) nm new1) by assumption.
    destruct (services st !! nm); [reflexivity|].
    now destruct (first_named (heap st1) nm new1).
  - intros id svc Hsvc.
    destruct (Hold1 id svc Hsvc)
      as (svc1 & extra1 & Hsvc1 & Hd1 & Hn1 & Hf1' & Hp1 & Ha1).
    destruct (Hold2 id svc1 Hsvc1)
      as (svc2 & extra2 & Hsvc2 & Hd2 & Hn2 & Hf2' & Hp2 & Ha2).
    exists svc2, (extra1 ++ extra2).
    split; [assumption|]. split; [congruence|].
    split; [intros nm Hnm; apply Hn2, Hn1, Hnm|].
    split; [rewrite Hf2', Hf1'; now rewrite app_assoc|].
    split.
    { intros Hne. rewrite (Hp1 Hne). simpl. apply Hp2.
      destruct Hparent as [-> | (id' & -> & Hge)]; [assumption|].
      apply lookup_lt_Some in Hsvc. intros [= ->]. lia. }
    intros rel Hrel. apply elem_of_app in Hrel as [Hrel|Hrel].
    + now apply Ha1.
    + specialize (Ha2 rel Hrel). rewrite Hfs1 in Ha2.
      unfold root in *. now rewrite Hd1 in Ha2.
  - intros id svc2 Hsvc2 Hge.
    destruct (decide (id < length (heap st1))) as [Hlt|Hnlt].
    + destruct (lookup_lt_is_Some_2 _ _ Hlt) as [svc1 Hsvc1].
      destruct (Hnew1 id svc1 Hsvc1 Hge) as [Had Haf].
      destruct (Hold2 id svc1 Hsvc1)
        as (svc2' & extra2 & Hsvc2' & Hd2 & _ & Hf2' & _ & Ha2).
      assert (svc2' = svc2) by congruence. subst svc2'.
      split; [now rewrite Hd2|].
      intros rel Hrel. rewrite Hf2' in Hrel.
      unfold root in *. rewrite Hd2.
      apply elem_of_app in Hrel as [Hrel|Hrel].
      * now apply Haf.
      * specialize (Ha2 rel Hrel). now rewrite Hfs1 in Ha2.
    + destruct (Hnew2 id svc2 Hsvc2 ltac:(lia)) as [Had Haf].
      rewrite Hfs1 in Had. split; [assumption|].
      intros rel Hrel. specialize (Haf rel Hrel). now rewrite Hfs1 in Haf.
Qed.

Lemma kept_below_lift (f : node) (ignores : list string) (p : path)
    (x : string) (q : path) :
  kept (ignores ++ own_ignores f p) p x = true ->
  kept_below f (ignores ++ own_ignores f p) (p ++ [x]) q ->
  kept_below f ignores p q.
Proof.
  intros Hkept (s & -> & Hs & Hall_kept).
  exists (x :: s). split; [now rewrite <- app_assoc|].
  split; [discriminate|]. simpl. auto.
Qed.

Lemma walk_post_lift (ignores : list string) (p : path) (x : string)
    (parent : option nat) (st : state) (f0 : list nat) (st' : state)
    (f' : list nat) :
  kept (ignores ++ own_ignores (fs st) p) p x = true ->
  walk_post (ignores ++ own_ignores (fs st) p) (p ++ [x]) parent st f0 st' f' ->
  walk_post ignores p parent st f0 st' f'.
Proof.
  intros Hkept [Hfs Hfound Hold Hnew]. split.
  - assumption.
  - assumption.
  - intros id svc Hsvc.
    destruct (Hold id svc Hsvc) as (svc' & extra & H1 & H2 & H3 & H4 & H5 & H6).
    exists svc', extra. repeat split; auto.
    intros rel Hrel. eapply kept_below_lift; eauto.
  - intros id svc' Hsvc' Hge. destruct (Hnew id svc' Hsvc' Hge) as [Hd Hf].
    split; [eapply kept_below_lift; eauto|].
    intros rel Hrel. eapply kept_below_lift; eauto.
Qed.

(** Replacing one object by one with the same descriptor and cached
    descriptor contents, and more files. *)
Lemma walk_post_update (ignores : list string) (p : path)
    (parent : option nat) (st : state) (found : list nat) (id : nat)
    (svc svc' : Service) (extra : list path) :
  heap st !! id = Some svc ->
  descriptor svc' = descriptor svc -> _info svc' = _info svc ->
  files svc' = files svc ++ extra ->
  (parent <> Some id -> extra = []) ->
  (forall rel, rel ∈ extra -> kept_below (fs st) ignores p (root svc ++ rel)) ->
  walk_post ignores p parent st found
    (set_heap (<[id := svc']> (heap st)) st) found.
Proof.
  intros Hsvc Hd Hi Hf Hp Ha. split.
  - reflexivity.
  - exists []. split; [now rewrite app_nil_r|]. split; [constructor|].
    split; [intros i Hi'; inversion Hi'|].
    intros nm. simpl. now destruct (services st !! nm).
  - intros id0 svc0 Hsvc0. simpl.
    destruct (decide (id0 = id)) as [->|Hne].
    + assert (svc0 = svc) by congruence. subst svc0.
      exists svc', extra.
      rewrite list_lookup_insert_eq by (eapply lookup_lt_Some; eauto).
      repeat split; auto.
      intros nm Hnm. now rewrite (name_of_same svc svc').
    + exists svc0, []. rewrite list_lookup_insert_ne by congruence.
      rewrite app_nil_r. repeat split; auto.
      intros rel Hrel. inversion Hrel.
  - intros id0 svc0 Hsvc0 Hge. simpl in Hsvc0.
    apply lookup_lt_Some in Hsvc0. rewrite length_insert in Hsvc0. lia.
Qed.

End Walk.

Section ServiceFacts.

Context (E : Collaborators) (forge : Forge.t).

Lemma set_heap_same (st : state) (id : nat) (svc : Service) :
  heap st !! id = Some svc -> set_heap (<[id := svc]> (heap st)) st = st.
Proof.
  intros H. destruct st as [f r h]. unfold set_heap. simpl in *.
  now rewrite list_insert_id.
Qed.

Lemma init_inr (desc : path) (sh : bool) (st : state) (id : nat)
    (st' : state) :
  Service.init E forge desc sh st = (inr id, st') ->
  id = length (heap st)
  /\ exists svc, st' = set_heap (heap st ++ [svc]) st
                 /\ descriptor svc = desc /\ files svc = []
                 /\ _info svc = None /\ shallow svc = sh.
Proof.
  unfold Service.init.
  destruct (search_parents (fs st) ".git" (dirname desc) false) as [g|];
    destruct (search_parents (fs st) "service.yaml" (dirname desc) true)
      as [top|]; try discriminate;
    intros H; injection H as <- <-; (split; [reflexivity|]);
    eexists; (split; [reflexivity|]); simpl; auto.
Qed.

(** [Service.info] answers from the cache, or loads the descriptor and
    fills the cache of this one object. *)
Lemma info_inr (id : nat) (i : info) (st st' : state) :
  Service.info E id st = (inr i, st') ->
  exists svc, heap st !! id = Some svc
              /\ st' = set_heap (<[id := with_info svc i]> (heap st)) st
              /\ (_info svc = None \/ _info svc = Some i).
Proof.
  unfold Service.info. intros H. run_step H.
  apply get_service_inr in Hstep as [Hsvc ->].
  exists a. split; [assumption|].
  destruct (_info a) as [i0|] eqn:Hi.
  - apply ret_inr in H as [-> ->]. split; [|auto].
    symmetry. apply set_heap_same.
    rewrite Hsvc. f_equal. destruct a. simpl in *. now subst.
  - run_step H. apply gets_inr in Hstep as [-> ->].
    run_step H. apply lift_inr in Hstep as [Hload ->].
    run_step H. unfold set_service in Hstep. apply modify_inr in Hstep.
    apply ret_inr in H as [-> ->]. subst. auto.
Qed.

Lemma name_of_with_info (svc : Service) (i : info) :
  name_of (with_info svc i)
  = Some (match info_name i with
          | Some n => n
          | None => basename (root svc)
          end).
Proof. reflexivity. Qed.

Lemma name_inr (id : nat) (nm : string) (st st' : state) :
  Service.name E id st = (inr nm, st') ->
  exists svc i, heap st !! id = Some svc
                /\ st' = set_heap (<[id := with_info svc i]> (heap st)) st
                /\ (_info svc = None \/ _info svc = Some i)
                /\ name_of (with_info svc i) = Some nm.
Proof.
  unfold Service.name. intros H. run_step H.
  apply info_inr in Hstep as (svc & Hsvc & -> & Hi).
  exists svc, a. split; [assumption|]. split; [|split; [assumption|]].
  - destruct (info_name a).
    + now apply ret_inr in H as [_ ->].
    + run_step H. apply get_service_inr in Hstep as [_ ->].
      now apply ret_inr in H as [_ ->].
  - rewrite name_of_with_info. destruct (info_name a).
    + now apply ret_inr in H as [-> _].
    + run_step H. apply get_service_inr in Hstep as [Hl ->].
      apply ret_inr in H as [-> _]. simpl in Hl.
      rewrite list_lookup_insert_eq in Hl by (eapply lookup_lt_Some; eauto).
      now injection Hl as <-.
Qed.


End ServiceFacts.

Section WalkSteps.

Context (E : Collaborators) (forge : Forge.t) (directory : path)
        (shallow : bool).

Local Abbreviation walk_post := (walk_post E directory).
Local Abbreviation kept_below := (kept_below E directory).
Local Abbreviation kept := (Discovery.kept E directory).

Lemma parent_above_post (ignores : list string) (p : path)
    (parent parent0 : option nat) (st : state) (found : list nat)
    (st' : state) (found' : list nat) :
  walk_post ignores p parent0 st found st' found' ->
  parent_above p parent st -> parent_above p parent st'.
Proof.
  intros Hpost Habove par ->.
  destruct (Habove par eq_refl) as (psvc & t & Hpsvc & Ht).
  destruct (wp_old _ _ _ _ _ _ _ _ _ Hpost _ _ Hpsvc)
    as (svc' & extra & Hl & Hd & _).
  exists svc', t. split; [assumption|].
  unfold root in *. now rewrite Hd.
Qed.

Lemma parent_above_child (p : path) (x : string) (parent : option nat)
    (st : state) :
  parent_above p parent st -> parent_above (p ++ [x]) parent st.
Proof.
  intros Habove par ->.
  destruct (Habove par eq_refl) as (psvc & t & Hpsvc & Ht).
  exists psvc, (t ++ [x]). split; [assumption|].
  now rewrite app_assoc, <- Ht.
Qed.

Lemma on_dockerfile_post (ignores : list string) (p : path)
    (names : list string) (parent : option nat) (st : state)
    (found : list nat) (u : unit) (st' : state) :
  Discovery.on_dockerfile p names parent st = (inr u, st') ->
  walk_post ignores p parent st found st' found.
Proof.
  unfold Discovery.on_dockerfile. intros H.
  destruct (bool_decide ("Dockerfile" ∈ names)).
  - destruct parent as [par|].
    + run_step H. apply get_service_inr in Hstep as [Hpar ->].
      unfold Service.append_dockerfile in H. run_step H.
      apply get_service_inr in Hstep as [Hpar' ->].
      unfold set_service in H. apply modify_inr in H. subst st'.
      apply (walk_post_update E directory ignores p (Some par) st found par
               a0 _ []); auto.
      * simpl. now rewrite app_nil_r.
      * intros rel Hrel. inversion Hrel.
    + apply ret_inr in H as [_ ->]. apply walk_post_refl.
  - apply ret_inr in H as [_ ->]. apply walk_post_refl.
Qed.

Lemma on_file_post (ignores : list string) (p : path) (x : string)
    (parent : option nat) (st : state) (found : list nat) (u : unit)
    (st' : state) :
  kept (ignores ++ own_ignores (fs st) p) p x = true ->
  parent_above p parent st ->
  Discovery.on_file (p ++ [x]) parent st = (inr u, st') ->
  walk_post ignores p parent st found st' found.
Proof.
  unfold Discovery.on_file. intros Hkept Habove H.
  destruct parent as [par|].
  - run_step H. apply get_service_inr in Hstep as [Hpar ->].
    unfold Service.append_file in H. run_step H.
    apply get_service_inr in Hstep as [Hpar' ->].
    unfold set_service in H. apply modify_inr in H. subst st'.
    assert (a0 = a) by congruence. subst a0.
    apply (walk_post_update E directory ignores p (Some par) st found par
             a _ [relpath (p ++ [x]) (root a)]); auto.
    + intros Hne. congruence.
    + intros rel Hrel. apply list_elem_of_singleton in Hrel as ->.
      destruct (Habove par eq_refl) as (psvc & t & Hl & Ht).
      assert (psvc = a) by congruence. subst psvc.
      exists [x]. split; [|split; [discriminate|simpl; auto]].
      unfold relpath. rewrite Ht, <- !app_assoc.
      now rewrite drop_app_length.
  - apply ret_inr in H as [_ ->]. apply walk_post_refl.
Qed.

Lemma register_lookup (nm : string) (id : nat) (st : state) (x : string) :
  services (snd (Discovery.register nm id st)) !! x
  = match services st !! x with
    | Some y => Some y
    | None => if decide (x = nm) then Some id else None
    end.
Proof.
  unfold Discovery.register, modify. simpl.
  destruct (services st !! nm) as [y|] eqn:Hnm.
  - destruct (services st !! x) eqn:Hx; [reflexivity|].
    destruct (decide (x = nm)) as [->|]; [congruence|reflexivity].
  - simpl. destruct (decide (x = nm)) as [->|Hne].
    + now rewrite lookup_insert_eq, Hnm.
    + rewrite lookup_insert_ne by congruence.
      now destruct (services st !! x).
Qed.

Lemma register_frame (nm : string) (id : nat) (st : state) :
  fs (snd (Discovery.register nm id st)) = fs st
  /\ heap (snd (Discovery.register nm id st)) = heap st.
Proof.
  unfold Discovery.register, modify. simpl.
  now destruct (services st !! nm).
Qed.

Lemma on_descriptor_post (ignores : list string) (p : path)
    (names : list string) (parent : option nat) (found : list nat)
    (st : state) (parent' : option nat) (found' : list nat) (st' : state) :
  ("service.yaml" ∈ names ->
   kept (ignores ++ own_ignores (fs st) p) p "service.yaml" = true) ->
  Discovery.on_descriptor E forge shallow p names parent found st
  = (inr (parent', found'), st') ->
  walk_post ignores p parent st found st' found'
  /\ ((parent' = parent /\ found' = found
       /\ ("service.yaml" ∉ names
           \/ is_service_descriptor E (fs st) (p ++ ["service.yaml"])
              = inr false))
      \/ (parent' = Some (length (heap st))
          /\ found' = found ++ [length (heap st)]
          /\ exists svc', heap st' !! length (heap st) = Some svc'
                          /\ root svc' = p)).
Proof.
  unfold Discovery.on_descriptor. intros Hkept H.
  destruct (bool_decide ("service.yaml" ∈ names)) eqn:Hin.
  2: { apply ret_inr in H as [[= -> ->] ->].
       apply bool_decide_eq_false in Hin.
       split; [apply walk_post_refl|auto]. }
  apply bool_decide_eq_true in Hin. specialize (Hkept Hin).
  step_in H as f sta Hf. apply gets_inr in Hf as [-> ->].
  step_in H as genuine stb Hgen. apply lift_inr in Hgen as [Hgen ->].
  destruct genuine.
  2: { apply ret_inr in H as [[= -> ->] ->].
       split; [apply walk_post_refl|auto]. }
  step_in H as id0 stc Hinit. apply init_inr in Hinit
    as (-> & svc0 & -> & Hdesc0 & Hfiles0 & Hinfo0 & _).
  step_in H as nm std Hnm. apply name_inr in Hnm
    as (svc & i & Hsvc & -> & _ & Hname).
  simpl in Hsvc.
  rewrite list_lookup_middle in Hsvc by reflexivity.
  injection Hsvc as <-.
  step_in H as u st1 Hstep. apply modify_inr in Hstep.
  apply ret_inr in H as [[= -> ->] ->].
  set (id := length (heap st)) in *.
  set (svc1 := with_info svc0 i) in *.
  set (st2 := set_heap (<[id := svc1]> (heap (set_heap (heap st ++ [svc0]) st)))
                (set_heap (heap st ++ [svc0]) st)) in *.
  assert (Hst1 : st1 = snd (Discovery.register nm id st2)).
  { unfold Discovery.register, modify. simpl. exact Hstep. }
  assert (Hheap2 : heap st2 = heap st ++ [svc1]).
  { unfold st2. simpl. unfold id.
    rewrite <- (Nat.add_0_r (length (heap st))).
    now rewrite insert_app_r. }
  destruct (register_frame nm id st2) as [Hfs1 Hheap1].
  rewrite <- Hst1 in Hfs1, Hheap1. rewrite Hheap2 in Hheap1.
  assert (Hreg : forall x,
            services st1 !! x
            = match services st !! x with
              | Some y => Some y
              | None => if decide (x = nm) then Some id else None
              end).
  { intros x. rewrite Hst1, register_lookup. reflexivity. }
  assert (Hnew : heap st1 !! id = Some svc1).
  { rewrite Hheap1. now apply list_lookup_middle. }
  assert (Hroot : root svc1 = p).
  { unfold root, svc1. simpl. rewrite Hdesc0. apply removelast_snoc. }
  split.
  2: { right. split; [reflexivity|]. split; [reflexivity|].
       exists svc1. auto. }
  split.
  - exact Hfs1.
  - exists [id]. split; [reflexivity|].
    split; [apply NoDup_singleton|].
    split.
    + intros x Hx. apply list_elem_of_singleton in Hx as ->.
      split; [reflexivity|]. unfold heap_name. rewrite Hnew. eauto.
    + intros x. rewrite Hreg. destruct (services st !! x); [reflexivity|].
      unfold first_named. simpl. unfold heap_name. rewrite Hnew, Hname.
      destruct (decide (x = nm)) as [->|Hne].
      * now rewrite bool_decide_eq_true_2.
      * rewrite bool_decide_eq_false_2; [reflexivity|congruence].
  - intros id0 svc Hsvc. exists svc, []. rewrite app_nil_r.
    split.
    { rewrite Hheap1. rewrite lookup_app_l; [assumption|].
      eapply lookup_lt_Some; eauto. }
    repeat split; auto. intros rel Hrel. inversion Hrel.
  - intros id0 svc' Hsvc' Hge.
    assert (id0 = id).
    { apply lookup_lt_Some in Hsvc'. rewrite Hheap1, length_app in Hsvc'.
      simpl in Hsvc'. unfold id. lia. }
    subst id0. assert (svc' = svc1) by congruence. subst svc'.
    split.
    + exists ["service.yaml"]. split; [exact Hdesc0|].
      split; [discriminate|]. simpl. auto.
    + intros rel Hrel. unfold svc1 in Hrel. simpl in Hrel.
      rewrite Hfiles0 in Hrel. inversion Hrel.
Qed.

Local Abbreviation descend := (Discovery.descend E forge directory shallow).

Lemma descend_Dir (p : path) (children : list (string * node))
    (parent : option nat) (ignores : list string) (found : list nat) :
  descend p (Dir children) parent ignores found
  = (f <- gets fs ;;
     own <- lift (get_ignores f p) ;;
     let ignores := ignores ++ own in
     let names := filter (fun n => kept ignores p n = true)
                         (map fst children) in
     '(parent, found) <-
       Discovery.on_descriptor E forge shallow p names parent found ;;
     _ <- Discovery.on_dockerfile p names parent ;;
     Discovery.for_names E directory descend p parent ignores children found).
Proof. reflexivity. Qed.

Local Abbreviation descend_ok := (descend_ok E directory forge shallow).

Lemma for_names_post (cs : list (string * node)) :
  Forall (fun nc => descend_ok (snd nc)) cs ->
  forall p parent ig0 ig found st found' st',
    ig = ig0 ++ own_ignores (fs st) p ->
    parent_above p parent st ->
    Discovery.for_names E directory descend p parent ig cs found st
    = (inr found', st') ->
    walk_post ig0 p parent st found st' found'.
Proof.
  induction cs as [|[name c] cs IH]; intros Hall p parent ig0 ig found st
    found' st' Hig Habove H.
  - simpl in H. apply ret_inr in H as [-> ->]. apply walk_post_refl.
  - inversion Hall as [|? ? Hc Hcs]; subst. simpl in Hc.
    specialize (IH Hcs). simpl in H.
    destruct (kept (ig0 ++ own_ignores (fs st) p) p name) eqn:Hkept.
    2: { eapply IH; eauto. }
    assert (Hrest : forall st1 f1,
              walk_post ig0 p parent st found st1 f1 ->
              Discovery.for_names E directory descend p parent
                (ig0 ++ own_ignores (fs st) p) cs f1 st1 = (inr found', st') ->
              walk_post ig0 p parent st found st' found').
    { intros st1 f1 Hfirst Hloop.
      eapply walk_post_trans; [exact Hfirst| |left; reflexivity].
      eapply IH; [|eapply parent_above_post; eauto|exact Hloop].
      now rewrite (wp_fs _ _ _ _ _ _ _ _ _ Hfirst). }
    destruct c as [content|e|children].
    + step_in H as u st1 Hfile. eapply Hrest; [|exact H].
      eapply on_file_post; eauto.
    + step_in H as u st1 Hfile. eapply Hrest; [|exact H].
      eapply on_file_post; eauto.
    + step_in H as f1 st1 Hdir. eapply Hrest; [|exact H].
      apply walk_post_lift with (x := name); [assumption|].
      eapply Hc; [|exact Hdir]. now apply parent_above_child.
Qed.

Lemma descend_post (n : node) : descend_ok n.
Proof.
  induction n as [c|e|cs IH] using node_ind_nested;
    intros p parent ignores found st found' st' Habove H.
  - simpl in H. apply ret_inr in H as [-> ->]. apply walk_post_refl.
  - simpl in H. apply ret_inr in H as [-> ->]. apply walk_post_refl.
  - rewrite descend_Dir in H.
    step_in H as f sta Hf. apply gets_inr in Hf as [-> ->].
    step_in H as own stb Hown. apply lift_inr in Hown as [Hown ->].
    assert (Hig : own_ignores (fs st) p = own).
    { unfold own_ignores. now rewrite Hown. }
    cbv zeta in H.
    step_in H as pf st1 Hdesc. destruct pf as [parent1 found1].
    step_in H as u st2 Hdock.
    apply on_descriptor_post with (ignores := ignores) in Hdesc
      as [Hpost1 Hparent1].
    2: { intros Hin. apply list_elem_of_filter in Hin as [Hk _].
         now rewrite Hig. }
    apply on_dockerfile_post with (ignores := ignores) (found := found1)
      in Hdock.
    assert (Hcond : parent1 = parent
                    \/ exists id, parent1 = Some id /\ length (heap st) <= id).
    { destruct Hparent1 as [(-> & _)|(-> & _)]; [now left|].
      right. eexists. split; [reflexivity|lia]. }
    assert (Habove1 : parent_above p parent1 st1).
    { destruct Hparent1 as [(-> & _)|(-> & _ & svc' & Hl & Hroot)].
      - eapply parent_above_post; eauto.
      - intros par [= <-]. exists svc', []. split; [assumption|].
        now rewrite Hroot, app_nil_r. }
    assert (Hpost2 : walk_post ignores p parent st found st2 found1).
    { eapply walk_post_trans; eauto. }
    eapply walk_post_trans; [exact Hpost2| |exact Hcond].
    eapply for_names_post;
      [exact IH| |exact (parent_above_post _ _ _ _ _ _ _ _ Hdock Habove1)
       |exact H].
    rewrite (wp_fs _ _ _ _ _ _ _ _ _ Hpost2). now rewrite Hig.
Qed.

End WalkSteps.

(** ** Ignore sets *)






Section KeptPaths.

Context (E : Collaborators) (directory : path).



End KeptPaths.

(** ** Discovery *)

Lemma first_named_first (h : list Service) (nm : string) (l : list nat)
    (i a : nat) :
  l !! i = Some a -> heap_name h a = Some nm ->
  exists k c, k <= i /\ l !! k = Some c /\ first_named h nm l = Some c.
Proof.
  revert i. induction l as [|x l IH]; intros i Hi Ha; [discriminate|].
  unfold first_named. simpl.
  destruct (bool_decide (heap_name h x = Some nm)) eqn:Hx.
  - exists 0, x. repeat split; auto. lia.
  - destruct i as [|i].
    + simpl in Hi. injection Hi as ->.
      apply bool_decide_eq_false in Hx. contradiction.
    + destruct (IH i Hi Ha) as (k & c & Hk & Hc & Hfirst).
      exists (S k), c. repeat split; auto. lia.
Qed.

Section Search.

Context (E : Collaborators) (forge : Forge.t).

Lemma search_inr (directory : path) (shallow : bool) (st : state)
    (found : list nat) (st' : state) :
  Discovery.search E forge directory shallow st = (inr found, st') ->
  exists ancestors base,
    get_ancestors directory (gitroot_of (fs st) directory) = Some ancestors
    /\ Discovery.extend_ignores (fs st) ancestors [".git"; ".forge"]
       = inr base
    /\ walk_post E directory base directory None st [] st' found.
Proof.
  unfold Discovery.search. intros H.
  step_in H as f sta Hf. apply gets_inr in Hf as [-> ->].
  destruct (negb (exists_ (fs st) directory)); [discriminate|].
  destruct (negb (isdir (fs st) directory)); [discriminate|].
  step_in H as ancestors stb Hanc.
  fold (gitroot_of (fs st) directory) in Hanc.
  destruct (get_ancestors directory (gitroot_of (fs st) directory))
    as [ds|] eqn:Hds; [|discriminate].
  apply ret_inr in Hanc as [-> ->].
  step_in H as base stc Hbase. apply lift_inr in Hbase as [Hbase ->].
  exists ds, base. split; [reflexivity|]. split; [assumption|].
  destruct (fs_lookup (fs st) directory) as [n|].
  - eapply descend_post; [|exact H]. intros par Hpar. discriminate.
  - apply ret_inr in H as [-> ->]. apply walk_post_refl.
Qed.

Lemma on_descriptor_genuine (shallow : bool) (p : path)
    (names : list string) (parent : option nat) (found : list nat)
    (st : state) (parent' : option nat) (found' : list nat) (st' : state) :
  "service.yaml" ∈ names ->
  is_service_descriptor E (fs st) (p ++ ["service.yaml"]) = inr true ->
  Discovery.on_descriptor E forge shallow p names parent found st
  = (inr (parent', found'), st') ->
  parent' = Some (length (heap st))
  /\ found' = found ++ [length (heap st)]
  /\ exists svc nm,
       heap st' !! length (heap st) = Some svc
       /\ descriptor svc = p ++ ["service.yaml"]
       /\ name_of svc = Some nm
       /\ services st' !! nm
          = match services st !! nm with
            | Some x => Some x
            | None => Some (length (heap st))
            end.
Proof.
  unfold Discovery.on_descriptor. intros Hin Hgen H.
  rewrite bool_decide_eq_true_2 in H by assumption.
  step_in H as f sta Hf. apply gets_inr in Hf as [-> ->].
  step_in H as genuine stb Hg. apply lift_inr in Hg as [Hg ->].
  assert (genuine = true) by congruence. subst genuine.
  step_in H as id0 stc Hinit. apply init_inr in Hinit
    as (-> & svc0 & -> & Hdesc0 & Hfiles0 & Hinfo0 & _).
  step_in H as nm std Hnm. apply name_inr in Hnm
    as (svc & i & Hsvc & -> & _ & Hname).
  simpl in Hsvc. rewrite list_lookup_middle in Hsvc by reflexivity.
  injection Hsvc as <-.
  step_in H as u st1 Hstep.
  apply ret_inr in H as [[= -> ->] ->].
  split; [reflexivity|]. split; [reflexivity|].
  exists (with_info svc0 i), nm.
  match type of Hstep with Discovery.register _ _ ?s = _ =>
    pose proof (register_lookup nm (length (heap st)) s nm) as Hreg;
    destruct (register_frame nm (length (heap st)) s) as [_ Hheap]
  end.
  rewrite Hstep in Hreg, Hheap. simpl in Hreg, Hheap.
  split.
  { rewrite Hheap. apply list_lookup_insert_eq.
    rewrite length_app. simpl. lia. }
  split; [exact Hdesc0|]. split; [exact Hname|].
  rewrite Hreg. destruct (services st !! nm); [reflexivity|].
  now rewrite decide_True.
Qed.

(** C4: after a successful [search], the returned list holds distinct
    objects created by this walk, each with a name; a registry entry that
    existed is kept; a name that was free is bound to the first object of
    the list with that name; hence of two listed objects with one name
    the later one is not the registry entry, while both are in the list.
    Each genuine descriptor met appends its object to the list, whether
    or not its name was free. *)
Theorem first_registration_wins (directory : path) (shallow : bool)
    (st : state) (found : list nat) (st' : state) :
  Discovery.search E forge directory shallow st = (inr found, st') ->
  NoDup found
  /\ (forall id, id ∈ found ->
        length (heap st) <= id /\ is_Some (heap_name (heap st') id))
  /\ (forall nm x, services st !! nm = Some x -> services st' !! nm = Some x)
  /\ (forall nm, services st !! nm = None ->
        services st' !! nm = first_named (heap st') nm found)
  /\ (forall i j a b nm,
        i < j -> found !! i = Some a -> found !! j = Some b ->
        heap_name (heap st') a = Some nm ->
        heap_name (heap st') b = Some nm ->
        a <> b /\ a ∈ found /\ b ∈ found
        /\ (registry_wf st -> services st' !! nm <> Some b))
  /\ (forall p names parent found0 st0 parent1 found1 st1,
        "service.yaml" ∈ names ->
        is_service_descriptor E (fs st0) (p ++ ["service.yaml"]) = inr true ->
        Discovery.on_descriptor E forge shallow p names parent found0 st0
        = (inr (parent1, found1), st1) ->
        found1 = found0 ++ [length (heap st0)]
        /\ exists nm, heap_name (heap st1) (length (heap st0)) = Some nm
                      /\ services st1 !! nm
                         = match services st0 !! nm with
                           | Some x => Some x
                           | None => Some (length (heap st0))
                           end).
Proof.
  intros Hsearch.
  destruct (search_inr _ _ _ _ _ Hsearch) as (ancestors & base & _ & _ & Hpost).
  destruct (wp_found _ _ _ _ _ _ _ _ _ Hpost)
    as (new & Hnew & Hnd & Hids & Hreg).
  simpl in Hnew. subst new.
  split; [assumption|]. split; [assumption|].
  split.
  { intros nm x Hx. now rewrite Hreg, Hx. }
  split.
  { intros nm Hnone. now rewrite Hreg, Hnone. }
  split.
  { intros i j a b nm Hij Ha Hb Hna Hnb.
    split.
    { intros ->. pose proof (NoDup_lookup _ _ _ _ Hnd Ha Hb). lia. }
    split; [eapply list_elem_of_lookup_2; eauto|].
    split; [eapply list_elem_of_lookup_2; eauto|].
    intros Hwf Hstored. rewrite Hreg in Hstored.
    destruct (services st !! nm) as [x|] eqn:Hx.
    - injection Hstored as ->. specialize (Hwf nm b Hx).
      assert (Hin : b ∈ found) by (eapply list_elem_of_lookup_2; eauto).
      destruct (Hids b Hin) as [Hge _]. lia.
    - destruct (first_named_first _ _ _ _ _ Ha Hna)
        as (k & c & Hk & Hc & Hfirst).
      assert (c = b) by congruence. subst c.
      pose proof (NoDup_lookup _ _ _ _ Hnd Hc Hb). lia. }
  intros p names parent found0 st0 parent1 found1 st1 Hin Hgen Hrun.
  destruct (on_descriptor_genuine _ _ _ _ _ _ _ _ _ Hin Hgen Hrun)
    as (_ & Hfound & svc & nm & Hsvc & _ & Hname & Hstored).
  split; [assumption|]. exists nm. split; [|assumption].
  unfold heap_name. now rewrite Hsvc.
Qed.


End Search.

Lemma registry_wf_empty (f : node) : registry_wf (st_empty f).
Proof. intros nm x H. simpl in H. now rewrite lookup_empty in H. Qed.

Lemma first_registration_wins_witness :
  NoDup [0; 1]
  /\ services st_twins !! "app" = first_named (heap st_twins) "app" [0; 1]
  /\ services st_twins !! "app" = Some 0
  /\ 0 <> 1 /\ 0 ∈ [0; 1] /\ 1 ∈ [0; 1]
  /\ services st_twins !! "app" <> Some 1.
Proof.
  assert (Hrun : Discovery.search world forge0 ["w"] false (st_empty fs_twins)
                 = (inr [0; 1], st_twins)) by (vm_compute; reflexivity).
  destruct (first_registration_wins world forge0 ["w"] false
              (st_empty fs_twins) [0; 1] st_twins Hrun)
    as (Hnd & _ & _ & Hfirst & Hboth & _).
  assert (Hname0 : heap_name (heap st_twins) 0 = Some "app")
    by (vm_compute; reflexivity).
  assert (Hname1 : heap_name (heap st_twins) 1 = Some "app")
    by (vm_compute; reflexivity).
  destruct (Hboth 0 1 0 1 "app" ltac:(lia) eq_refl eq_refl Hname0 Hname1)
    as (Hne & Hin0 & Hin1 & Hnot).
  split; [exact Hnd|].
  split; [apply Hfirst; simpl; apply lookup_empty|].
  split; [vm_compute; reflexivity|].
  split; [exact Hne|]. split; [exact Hin0|]. split; [exact Hin1|].
  apply Hnot. apply registry_wf_empty.
Defined.

(** The walk over [fs_twins], evaluated: both objects carry their own
    files. *)
Example search_twins_files :
  map files (heap st_twins)
  = [[["service.yaml"]; ["one.py"]]; [["service.yaml"]; ["two.py"]]].
Proof. vm_compute. reflexivity. Qed.


(** The walk over [fs_ignores], evaluated: [secret] is left out
    everywhere, [tmp] only below [a]. *)
Example search_ignores_files :
  map files (heap st_ignores)
  = [[[".gitignore"]; ["service.yaml"]; ["a"; ".forgeignore"];
      ["a"; "keep"]; ["a"; "deep"; "ok"]; ["b"; "tmp"]]].
Proof. vm_compute. reflexivity. Qed.

(** ** SHA-1 test vectors *)

Example sha1_abc :
  SHA1.hexdigest_of "abc" = "a9993e364706816aba3e25717850c26c9cd0d89d".
Proof. vm_compute. reflexivity. Qed.

Example sha1_empty :
  SHA1.hexdigest_of "" = "da39a3ee5e6b4b0d3255bfef95601890afd80709".
Proof. vm_compute. reflexivity. Qed.

Example sha1_two_blocks :
  SHA1.hexdigest_of "abcdbcdecdefdefgefghfghighijhijkijkljklmklmnlmnomnopnopq"
  = "84983e441c3bd26ebaae4aa1f95129e5e54670f1".
Proof. vm_compute. reflexivity. Qed.

(** ** Resolution and the registry *)





Section Resolve.

Context (E : Collaborators) (forge : Forge.t).



Lemma name_services (id : nat) (nm : string) (st st' : state) :
  Service.name E id st = (inr nm, st') -> services st' = services st.
Proof. intros H. apply name_inr in H as (svc & i & _ & -> & _). reflexivity. Qed.







End Resolve.

(** ** The loop of [dependencies] *)



Section Loop.

Context (E : Collaborators) (forge : Forge.t).






End Loop.

Section Aggregation.

Context (E : Collaborators) (forge : Forge.t).




End Aggregation.



(** * Further properties of the module *)

(** ** [get_ancestors] *)

Lemma get_ancestors_up_eq (rpath : list string) (stop : path) :
  get_ancestors_up rpath stop
  = if bool_decide (rev rpath = stop) then Some []
    else match rpath with
         | [] => None
         | _ :: up =>
             match get_ancestors_up up stop with
             | Some ds => Some (ds ++ [rev up])
             | None => None
             end
         end.
Proof. destruct rpath; reflexivity. Qed.

Lemma get_ancestors_up_prefix (rpath : list string) (stop : path)
    (l : list path) :
  get_ancestors_up rpath stop = Some l -> stop `prefix_of` rev rpath.
Proof.
  revert l. induction rpath as [|x up IH]; intros l H;
    rewrite get_ancestors_up_eq in H;
    destruct (bool_decide_reflect (rev [] = stop)) as [Hb|Hb];
    try (destruct (bool_decide_reflect (rev (x :: up) = stop)) as [Hc|Hc]).
  all: try (rewrite <- Hb; exists []; reflexivity).
  all: try discriminate.
  all: try (rewrite <- Hc; exists []; now rewrite app_nil_r).
  all: destruct (get_ancestors_up up stop) as [ds|] eqn:Hup; [|discriminate].
  all: simpl; apply prefix_app_r; eapply IH; eauto.
Qed.

Lemma get_ancestors_below (stop s : path) :
  get_ancestors (stop ++ s) stop
  = Some (map (fun i => stop ++ take i s) (seq 0 (length s))).
Proof.
  unfold get_ancestors. induction s as [|x s IH] using rev_ind.
  - rewrite app_nil_r, get_ancestors_up_eq, rev_involutive.
    now rewrite bool_decide_eq_true_2.
  - rewrite app_assoc, rev_unit, get_ancestors_up_eq.
    rewrite bool_decide_eq_false_2.
    2: { simpl. rewrite rev_involutive. intros Heq.
         apply (f_equal (@length string)) in Heq.
         rewrite !length_app in Heq. simpl in Heq. lia. }
    rewrite IH, rev_involutive. f_equal.
    rewrite length_app. simpl. rewrite seq_app, map_app. simpl.
    f_equal.
    + apply map_ext_in. intros i Hi. apply in_seq in Hi.
      now rewrite take_app_le by lia.
    + now rewrite take_app_length.
Qed.

(** X1: [get_ancestors path stop] lists the directories from [stop] down
    to the parent of [path], in that order, when [stop] is [path] or one
    of its ancestors, and only then; otherwise the recursion never meets
    [stop] and there is no list. *)
Theorem get_ancestors_spec (p stop : path) :
  (forall s, p = stop ++ s ->
     get_ancestors p stop
     = Some (map (fun i => stop ++ take i s) (seq 0 (length s))))
  /\ (is_Some (get_ancestors p stop) <-> stop `prefix_of` p).
Proof.
  split.
  - intros s ->. apply get_ancestors_below.
  - split.
    + intros [l Hl]. unfold get_ancestors in Hl.
      apply get_ancestors_up_prefix in Hl. now rewrite rev_involutive in Hl.
    + intros [s ->]. rewrite get_ancestors_below. eauto.
Qed.

Lemma get_ancestors_spec_witness :
  get_ancestors ["a"; "b"; "c"] ["a"] = Some [["a"]; ["a"; "b"]]
  /\ get_ancestors ["a"; "b"] ["x"] = None.
Proof.
  split.
  - apply (proj1 (get_ancestors_spec ["a"; "b"; "c"] ["a"]) ["b"; "c"]).
    reflexivity.
  - destruct (get_ancestors ["a"; "b"] ["x"]) as [l|] eqn:Hl; [|reflexivity].
    assert (Hp : ["x"] `prefix_of` ["a"; "b"]).
    { apply (proj2 (get_ancestors_spec ["a"; "b"] ["x"])).
      rewrite Hl. eauto. }
    destruct Hp as [k Hk]. discriminate Hk.
Defined.

(** ** [get_ignores] *)







(** ** [is_git] *)

Lemma prefix_snoc_inv {A} (q l : list A) (x : A) :
  q `prefix_of` l ++ [x] -> q `prefix_of` l \/ q = l ++ [x].
Proof.
  intros [k Hk]. destruct k as [|y k] using rev_ind.
  - right. now rewrite app_nil_r in Hk.
  - left. rewrite app_assoc in Hk. apply app_inj_tail in Hk as [Hk _].
    exists k. assumption.
Qed.

Lemma is_git_up_iff (f : node) (rpath : list string) :
  is_git_up f rpath = true
  <-> exists q, q `prefix_of` rev rpath /\ exists_ f (q ++ [".git"]) = true.
Proof.
  induction rpath as [|x up IH].
  - simpl. destruct (exists_ f [".git"]) eqn:He.
    + split; [|reflexivity]. intros _. exists []. split; [|assumption].
      exists []. reflexivity.
    + split; [discriminate|]. intros (q & Hq & Hex).
      apply prefix_nil_inv in Hq. subst q. simpl in Hex. congruence.
  - simpl. destruct (exists_ f ((rev up ++ [x]) ++ [".git"])) eqn:He.
    + split; [|reflexivity]. intros _. exists (rev up ++ [x]).
      split; [|assumption]. exists []. now rewrite app_nil_r.
    + rewrite IH. split.
      * intros (q & Hq & Hex). exists q. split; [|assumption].
        now apply prefix_app_r.
      * intros (q & Hq & Hex).
        apply prefix_snoc_inv in Hq as [Hq| ->]; [eauto|congruence].
Qed.

(** X3: [is_git path] holds exactly when [path] or a directory above it,
    up to the root, has an entry [.git]; so it holds for every path below
    one for which it holds. *)
Theorem is_git_spec (f : node) (p : path) :
  (is_git f p = true
   <-> exists q, q `prefix_of` p /\ exists_ f (q ++ [".git"]) = true)
  /\ (forall s, is_git f p = true -> is_git f (p ++ s) = true).
Proof.
  assert (Hiff : forall p', is_git f p' = true
            <-> exists q, q `prefix_of` p'
                          /\ exists_ f (q ++ [".git"]) = true).
  { intros p'. unfold is_git. rewrite is_git_up_iff.
    now rewrite rev_involutive. }
  split; [apply Hiff|].
  intros s Hp. apply Hiff in Hp as (q & Hq & Hex). apply Hiff.
  exists q. split; [|assumption]. now apply prefix_app_r.
Qed.

Lemma is_git_spec_witness :
  is_git fs_repo ["repo"; "svc"; "src"; "deep"] = true.
Proof.
  apply (proj2 (is_git_spec fs_repo ["repo"; "svc"]) ["src"; "deep"]).
  apply (proj1 (is_git_spec fs_repo ["repo"; "svc"])).
  exists ["repo"]. split; [|reflexivity].
  exists ["svc"]. reflexivity.
Defined.

(** ** Cached properties of a [Service] *)

Section Caches.

Context (E : Collaborators).

(** X4: once [Service.version] has answered, it answers the same string
    again whatever has become of the filesystem, and changes nothing;
    the first call touches nothing but the cache of that one object. *)
Theorem version_computed_once (id : nat) (st : state) (v : string)
    (st1 : state) :
  Service.version E id st = (inr v, st1) ->
  (forall f', Service.version E id (set_fs f' st1) = (inr v, set_fs f' st1))
  /\ fs st1 = fs st /\ services st1 = services st
  /\ length (heap st1) = length (heap st)
  /\ (forall j, j <> id -> heap st1 !! j = heap st !! j)
  /\ (exists svc, heap st !! id = Some svc
                  /\ heap st1 !! id = Some (with_version svc v)).
Proof.
  unfold Service.version. intros H.
  step_in H as svc sta Hsvc. apply get_service_inr in Hsvc as [Hsvc ->].
  destruct (_version svc) as [v0|] eqn:Hv.
  - apply ret_inr in H as [-> ->].
    assert (Hsame : with_version svc v0 = svc).
    { destruct svc. simpl in *. now subst. }
    split.
    { intros f'. unfold bind, get_service. simpl. now rewrite Hsvc, Hv. }
    repeat split; auto. exists svc. now rewrite Hsame.
  - step_in H as f stb Hf. apply gets_inr in Hf as [-> ->].
    step_in H as digest stc Hd. apply lift_inr in Hd as [Hd ->].
    step_in H as v0 stv Hv0. apply lift_inr in Hv0 as [Hv0 ->].
    step_in H as u std Hset. unfold set_service in Hset.
    apply modify_inr in Hset. apply ret_inr in H as [-> ->]. subst std.
    assert (Hid : id < length (heap st)) by (eapply lookup_lt_Some; eauto).
    split.
    { intros f'. unfold bind, get_service. simpl.
      now rewrite list_lookup_insert_eq. }
    simpl. rewrite length_insert.
    repeat split; auto.
    + intros j Hj. now rewrite list_lookup_insert_ne.
    + exists svc. now rewrite list_lookup_insert_eq.
Qed.


End Caches.

Lemma version_computed_once_witness :
  Service.version world 0 (set_fs (Dir []) (snd (Service.version world 0 st_repo)))
  = (inr "3f2a9c1d.git", set_fs (Dir []) (snd (Service.version world 0 st_repo))).
Proof.
  apply (version_computed_once world 0 st_repo "3f2a9c1d.git"
           (snd (Service.version world 0 st_repo))).
  vm_compute. reflexivity.
Defined.


(** ** [shafiles]: sensitivity to content *)






(** ** [Discovery.search]: what the walk leaves alone *)

Lemma walk_frame_refl (flag : bool) (base : nat) (st : state)
    (found : list nat) :
  walk_frame flag base st found st found.
Proof.
  split; auto.
  - rewrite Nat.sub_diag. simpl. now rewrite app_nil_r.
  - intros id svc H. eauto.
  - intros id svc H Hlen. apply lookup_lt_Some in H. lia.
Qed.

Lemma walk_frame_trans (flag : bool) (base : nat) (st : state)
    (f0 : list nat) (st1 : state) (f1 : list nat) (st2 : state)
    (f2 : list nat) :
  walk_frame flag base st f0 st1 f1 ->
  walk_frame flag base st1 f1 st2 f2 ->
  walk_frame flag base st f0 st2 f2.
Proof.
  intros [Hfs1 Hlen1 Hf1 Hb1 Hk1 Hc1] [Hfs2 Hlen2 Hf2 Hb2 Hk2 Hc2]. split.
  - congruence.
  - lia.
  - rewrite Hf2, Hf1, <- app_assoc. f_equal.
    replace (length (heap st2) - length (heap st))
      with ((length (heap st1) - length (heap st))
            + (length (heap st2) - length (heap st1))) by lia.
    rewrite seq_app. do 2 f_equal. lia.
  - intros id Hid. now rewrite Hb2, Hb1.
  - intros id svc Hsvc.
    destruct (Hk1 id svc Hsvc) as (svc1 & Hl1 & Hs1 & Hv1).
    destruct (Hk2 id svc1 Hl1) as (svc2 & Hl2 & Hs2 & Hv2).
    exists svc2. repeat split; congruence.
  - intros id svc2 Hsvc2 Hge.
    destruct (decide (length (heap st1) <= id)) as [Hnew|Hold].
    + now apply (Hc2 id svc2).
    + destruct (lookup_lt_is_Some_2 (heap st1) id ltac:(lia)) as [svc1 Hsvc1].
      destruct (Hk2 id svc1 Hsvc1) as (svc2' & Hl2 & Hs2 & Hv2).
      assert (svc2' = svc2) by congruence. subst svc2'.
      destruct (Hc1 id svc1 Hsvc1 Hge) as [Hs1 Hv1].
      split; congruence.
Qed.

(** An assignment to an object of this search that keeps its flag and
    its version. *)
Lemma walk_frame_update (flag : bool) (base : nat) (st : state)
    (found : list nat) (id : nat) (svc svc' : Service) :
  heap st !! id = Some svc -> base <= id ->
  shallow svc' = shallow svc -> _version svc' = _version svc ->
  walk_frame flag base st found
    (set_heap (<[id := svc']> (heap st)) st) found.
Proof.
  intros Hsvc Hbase Hs Hv.
  assert (Hid : id < length (heap st)) by (eapply lookup_lt_Some; eauto).
  split; simpl; rewrite ?length_insert.
  - reflexivity.
  - lia.
  - rewrite Nat.sub_diag. simpl. now rewrite app_nil_r.
  - intros i Hi. apply list_lookup_insert_ne. lia.
  - intros i s Hi. destruct (decide (i = id)) as [->|Hne].
    + assert (s = svc) by congruence. subst s.
      exists svc'. now rewrite list_lookup_insert_eq.
    + exists s. now rewrite list_lookup_insert_ne.
  - intros i s Hi Hge. apply lookup_lt_Some in Hi.
    rewrite length_insert in Hi. lia.
Qed.

(** The allocation of an object by this search. *)
Lemma walk_frame_alloc (flag : bool) (base : nat) (st : state)
    (found : list nat) (svc : Service) :
  base <= length (heap st) ->
  shallow svc = flag -> _version svc = None ->
  walk_frame flag base st found
    (set_heap (heap st ++ [svc]) st) (found ++ [length (heap st)]).
Proof.
  intros Hbase Hs Hv. split; simpl; rewrite ?length_app; simpl.
  - reflexivity.
  - lia.
  - replace (length (heap st) + 1 - length (heap st)) with 1 by lia.
    reflexivity.
  - intros i Hi. apply lookup_app_l. lia.
  - intros i s Hi. exists s. split; [|auto].
    rewrite lookup_app_l; [assumption|]. eapply lookup_lt_Some; eauto.
  - intros i s Hi Hge. rewrite lookup_app_r in Hi by assumption.
    destruct (i - length (heap st)); simpl in Hi; [|discriminate].
    injection Hi as <-. auto.
Qed.

Section WalkFrame.

Context (E : Collaborators) (forge : Forge.t) (directory : path)
        (flag : bool) (base : nat).

Local Abbreviation frame := (walk_frame flag base).
Local Abbreviation descend := (Discovery.descend E forge directory flag).

Lemma on_file_frame (child : path) (parent : option nat) (st : state)
    (found : list nat) (u : unit) (st' : state) :
  parent_fresh base parent ->
  Discovery.on_file child parent st = (inr u, st') ->
  frame st found st' found.
Proof.
  unfold Discovery.on_file. intros Hfresh H.
  destruct parent as [par|].
  - step_in H as psvc st1 Hpar. apply get_service_inr in Hpar as [Hpar ->].
    unfold Service.append_file in H.
    step_in H as svc st2 Hsvc. apply get_service_inr in Hsvc as [Hsvc ->].
    unfold set_service in H. apply modify_inr in H. subst st'.
    eapply walk_frame_update; eauto.
  - apply ret_inr in H as [_ ->]. apply walk_frame_refl.
Qed.

Lemma on_dockerfile_frame (p : path) (names : list string)
    (parent : option nat) (st : state) (found : list nat) (u : unit)
    (st' : state) :
  parent_fresh base parent ->
  Discovery.on_dockerfile p names parent st = (inr u, st') ->
  frame st found st' found.
Proof.
  unfold Discovery.on_dockerfile. intros Hfresh H.
  destruct (bool_decide ("Dockerfile" ∈ names));
    [|apply ret_inr in H as [_ ->]; apply walk_frame_refl].
  destruct parent as [par|].
  - step_in H as psvc st1 Hpar. apply get_service_inr in Hpar as [Hpar ->].
    unfold Service.append_dockerfile in H.
    step_in H as svc st2 Hsvc. apply get_service_inr in Hsvc as [Hsvc ->].
    unfold set_service in H. apply modify_inr in H. subst st'.
    eapply walk_frame_update; eauto.
  - apply ret_inr in H as [_ ->]. apply walk_frame_refl.
Qed.

Lemma init_frame (desc : path) (st : state) (found : list nat) (id : nat)
    (st' : state) :
  base <= length (heap st) ->
  Service.init E forge desc flag st = (inr id, st') ->
  id = length (heap st)
  /\ frame st found st' (found ++ [id]).
Proof.
  unfold Service.init. intros Hbase H.
  assert (Hsvc : exists svc, st' = set_heap (heap st ++ [svc]) st
                             /\ id = length (heap st)
                             /\ shallow svc = flag
                             /\ _version svc = None).
  { destruct (search_parents (fs st) ".git" (dirname desc) false) as [g|];
      destruct (search_parents (fs st) "service.yaml" (dirname desc) true)
        as [top|]; try discriminate;
      injection H as <- <-; eexists; (split; [reflexivity|]); auto. }
  clear H. destruct Hsvc as (svc & -> & -> & Hs & Hv).
  split; [reflexivity|]. eapply walk_frame_alloc; eauto.
Qed.

Lemma walk_frame_heap (st st' : state) (found : list nat) :
  fs st' = fs st -> heap st' = heap st -> frame st found st' found.
Proof.
  intros Hfs Hheap. split; rewrite ?Hheap; auto.
  - rewrite Nat.sub_diag. simpl. now rewrite app_nil_r.
  - intros id svc H. eauto.
  - intros id svc H Hlen. apply lookup_lt_Some in H. lia.
Qed.

Lemma on_descriptor_frame (p : path) (names : list string)
    (parent : option nat) (found : list nat) (st : state)
    (parent' : option nat) (found' : list nat) (st' : state) :
  base <= length (heap st) -> parent_fresh base parent ->
  Discovery.on_descriptor E forge flag p names parent found st
  = (inr (parent', found'), st') ->
  frame st found st' found' /\ parent_fresh base parent'.
Proof.
  unfold Discovery.on_descriptor. intros Hbase Hfresh H.
  destruct (bool_decide ("service.yaml" ∈ names)).
  2: { apply ret_inr in H as [[= -> ->] ->].
       split; [apply walk_frame_refl|assumption]. }
  step_in H as f sta Hf. apply gets_inr in Hf as [-> ->].
  step_in H as genuine stb Hg. apply lift_inr in Hg as [_ ->].
  destruct genuine.
  2: { apply ret_inr in H as [[= -> ->] ->].
       split; [apply walk_frame_refl|assumption]. }
  step_in H as id st1 Hinit.
  apply (init_frame _ _ found) in Hinit as [-> Hframe1]; [|assumption].
  step_in H as nm st2 Hname.
  apply name_inr in Hname as (svc & i & Hsvc & -> & _ & _).
  step_in H as u st3 Hreg.
  assert (Hst3 : st3 = snd (Discovery.register nm (length (heap st))
                    (set_heap (<[length (heap st) := with_info svc i]>
                                 (heap st1)) st1))).
  { now rewrite Hreg. }
  apply ret_inr in H as [[= -> ->] ->].
  split; [|intros par [= <-]; assumption].
  eapply walk_frame_trans; [exact Hframe1|].
  eapply walk_frame_trans.
  - apply (walk_frame_update flag base st1 _ (length (heap st)) svc
             (with_info svc i)); auto.
  - rewrite Hst3.
    destruct (register_frame nm (length (heap st))
                (set_heap (<[length (heap st) := with_info svc i]>
                             (heap st1)) st1)) as [Hfs Hheap].
    now apply walk_frame_heap.
Qed.

Lemma for_names_frame (cs : list (string * node)) :
  Forall (fun nc =>
            forall p parent ignores found st found' st',
              base <= length (heap st) -> parent_fresh base parent ->
              descend p (snd nc) parent ignores found st = (inr found', st') ->
              frame st found st' found') cs ->
  forall p parent ignores found st found' st',
    base <= length (heap st) -> parent_fresh base parent ->
    Discovery.for_names E directory descend p parent ignores cs found st
    = (inr found', st') ->
    frame st found st' found'.
Proof.
  induction cs as [|[name c] cs IH];
    intros Hall p parent ignores found st found' st' Hbase Hfresh H.
  - simpl in H. apply ret_inr in H as [-> ->]. apply walk_frame_refl.
  - inversion Hall as [|? ? Hc Hcs]; subst. simpl in Hc.
    specialize (IH Hcs). simpl in H.
    destruct (Discovery.kept E directory ignores p name); [|eauto].
    assert (Hrest : forall st1 f1,
              frame st found st1 f1 ->
              Discovery.for_names E directory descend p parent ignores cs
                f1 st1 = (inr found', st') ->
              frame st found st' found').
    { intros st1 f1 Hfirst Hloop.
      eapply walk_frame_trans; [exact Hfirst|].
      eapply IH; [|exact Hfresh|exact Hloop].
      pose proof (fr_len _ _ _ _ _ _ Hfirst). lia. }
    destruct c as [content|e|children].
    + step_in H as u st1 Hfile. eapply Hrest; [|exact H].
      eapply on_file_frame; eauto.
    + step_in H as u st1 Hfile. eapply Hrest; [|exact H].
      eapply on_file_frame; eauto.
    + step_in H as f1 st1 Hdir. eapply Hrest; [|exact H].
      eapply Hc; eauto.
Qed.

Lemma descend_frame (n : node) :
  forall p parent ignores found st found' st',
    base <= length (heap st) -> parent_fresh base parent ->
    descend p n parent ignores found st = (inr found', st') ->
    frame st found st' found'.
Proof.
  induction n as [c|e|cs IH] using node_ind_nested;
    intros p parent ignores found st found' st' Hbase Hfresh H.
  - simpl in H. apply ret_inr in H as [-> ->]. apply walk_frame_refl.
  - simpl in H. apply ret_inr in H as [-> ->]. apply walk_frame_refl.
  - rewrite descend_Dir in H.
    step_in H as f sta Hf. apply gets_inr in Hf as [-> ->].
    step_in H as own stb Hown. apply lift_inr in Hown as [_ ->].
    cbv zeta in H.
    step_in H as pf st1 Hdesc. destruct pf as [parent1 found1].
    step_in H as u st2 Hdock.
    apply on_descriptor_frame in Hdesc as [Hframe1 Hfresh1]; auto.
    apply (on_dockerfile_frame _ _ _ _ found1) in Hdock; [|assumption].
    eapply walk_frame_trans; [exact Hframe1|].
    eapply walk_frame_trans; [exact Hdock|].
    eapply for_names_frame; [exact IH| |exact Hfresh1|exact H].
    pose proof (fr_len _ _ _ _ _ _ Hframe1).
    pose proof (fr_len _ _ _ _ _ _ Hdock). lia.
Qed.

End WalkFrame.

Lemma prefix_of_lookup {A} (h h' : list A) :
  (forall i, i < length h -> h' !! i = h !! i) -> h `prefix_of` h'.
Proof.
  revert h'. induction h as [|x h IH]; intros h' H.
  - apply prefix_nil.
  - destruct h' as [|y h'].
    + specialize (H 0 ltac:(simpl; lia)). discriminate.
    + pose proof (H 0 ltac:(simpl; lia)) as H0. injection H0 as ->.
      apply prefix_cons, IH. intros i Hi.
      apply (H (S i)). simpl. lia.
Qed.

(** What a successful [search] leaves alone. *)
Lemma search_frame_inr (E : Collaborators) (forge : Forge.t)
    (directory : path) (flag : bool) (st : state) (found : list nat)
    (st' : state) :
  Discovery.search E forge directory flag st = (inr found, st') ->
  walk_frame flag (length (heap st)) st [] st' found.
Proof.
  unfold Discovery.search. intros H.
  step_in H as f sta Hf. apply gets_inr in Hf as [-> ->].
  destruct (negb (exists_ (fs st) directory)); [discriminate|].
  destruct (negb (isdir (fs st) directory)); [discriminate|].
  step_in H as ancestors stb Hanc.
  destruct (get_ancestors directory _) as [ds|]; [|discriminate].
  apply ret_inr in Hanc as [-> ->].
  step_in H as base0 stc Hbase. apply lift_inr in Hbase as [_ ->].
  destruct (fs_lookup (fs st) directory) as [n|].
  - eapply descend_frame; [| |exact H]; [lia|discriminate].
  - apply ret_inr in H as [-> ->]. apply walk_frame_refl.
Qed.

Lemma search_keeps_heap (E : Collaborators) (forge : Forge.t)
    (directory : path) (flag : bool) (st : state) (found : list nat)
    (st' : state) :
  Discovery.search E forge directory flag st = (inr found, st') ->
  fs st' = fs st /\ heap st `prefix_of` heap st'.
Proof.
  intros H. apply search_frame_inr in H as [Hfs _ _ Hbelow _ _].
  split; [assumption|now apply prefix_of_lookup].
Qed.

(** X8: a successful [search] does not change the filesystem and
    leaves every object that existed exactly as it was; the list it
    returns is the objects it allocated, all of them, in the order of
    allocation; each carries the [shallow] flag of the call, and none
    has had its version computed. *)
Theorem search_allocates_what_it_returns (E : Collaborators)
    (forge : Forge.t) (directory : path) (flag : bool) (st : state)
    (found : list nat) (st' : state) :
  Discovery.search E forge directory flag st = (inr found, st') ->
  fs st' = fs st
  /\ heap st `prefix_of` heap st'
  /\ found = seq (length (heap st)) (length (heap st') - length (heap st))
  /\ (forall id svc, heap st' !! id = Some svc -> length (heap st) <= id ->
        shallow svc = flag /\ _version svc = None).
Proof.
  intros H. destruct (search_keeps_heap _ _ _ _ _ _ _ H) as [Hfs Hpre].
  apply search_frame_inr in H as [_ _ Hfound _ _ Hcreated].
  split; [assumption|]. split; [assumption|].
  split; [exact Hfound|exact Hcreated].
Qed.

Lemma search_allocates_what_it_returns_witness :
  heap (st_empty fs_twins) `prefix_of` heap st_twins
  /\ [0; 1] = seq (length (heap (st_empty fs_twins)))
                  (length (heap st_twins) - length (heap (st_empty fs_twins))).
Proof.
  assert (Hrun : Discovery.search world forge0 ["w"] false (st_empty fs_twins)
                 = (inr [0; 1], st_twins)) by (vm_compute; reflexivity).
  destruct (search_allocates_what_it_returns world forge0 ["w"] false
              (st_empty fs_twins) [0; 1] st_twins Hrun)
    as (_ & Hpre & Hseq & _).
  split; assumption.
Defined.

(** ** The search path of a service *)

Section SearchPath.

Context (E : Collaborators) (forge : Forge.t).





End SearchPath.


(** ** [Discovery.resolve]: what it does to the filesystem *)

Section ResolveEffect.

Context (E : Collaborators) (forge : Forge.t).



End ResolveEffect.


(** ** [Discovery.resolve]: the remote of a dependency *)

Lemma split_on_nonempty (sep : ascii) (s cur : string) :
  split_on sep s cur <> [].
Proof.
  revert cur. induction s as [|c s IH]; intros cur; simpl.
  - discriminate.
  - destruct (Ascii.eqb c sep); [discriminate|apply IH].
Qed.

Lemma concat_cons_nonempty (sep x : string) (l : list string) :
  l <> [] -> String.concat sep (x :: l) = x +:+ sep +:+ String.concat sep l.
Proof. destruct l; [congruence|reflexivity]. Qed.

(** Joining what [split] answers gives the string back. *)
Lemma join_split_on (s cur : string) :
  String.concat "/" (split_on "/" s cur) = cur +:+ s.
Proof.
  revert cur. induction s as [|c s IH]; intros cur; simpl.
  - now rewrite app_empty_r.
  - destruct (Ascii.eqb c "/") eqn:Hc.
    + apply Ascii.eqb_eq in Hc as ->.
      rewrite concat_cons_nonempty by apply split_on_nonempty.
      rewrite IH, app_empty_l. reflexivity.
    + rewrite IH, app_assoc_s. reflexivity.
Qed.

Lemma split_on_app (a b cur : string) :
  split_on "/" (a +:+ "/" +:+ b) cur
  = split_on "/" a cur ++ split_on "/" b EmptyString.
Proof.
  revert cur. induction a as [|c a IH]; intros cur.
  - rewrite app_empty_l. reflexivity.
  - rewrite app_cons. simpl. destruct (Ascii.eqb c "/").
    + now rewrite IH.
    + apply IH.
Qed.

Lemma split_on_no_slash (s cur : string) :
  no_slash s = true -> split_on "/" s cur = [cur +:+ s].
Proof.
  revert cur. induction s as [|c s IH]; intros cur H; simpl in *.
  - now rewrite app_empty_r.
  - apply andb_true_iff in H as [Hc Hs].
    apply negb_true_iff in Hc. rewrite Hc, IH by assumption.
    now rewrite app_assoc_s.
Qed.

(** X11: the remote [resolve] tries for a dependency is the remote of
    the service with the text after its last slash replaced by the name
    of the dependency and [.git]; a remote without any slash gives
    [/<dep>.git]. *)
Theorem sibling_remote_spec (dep : string) :
  (forall base repo, no_slash repo = true ->
     sibling_remote (base +:+ "/" +:+ repo) dep
     = base +:+ "/" +:+ dep +:+ ".git")
  /\ (forall url, no_slash url = true ->
        sibling_remote url dep = "/" +:+ dep +:+ ".git").
Proof.
  unfold sibling_remote. split.
  - intros base repo H.
    rewrite split_on_app, (split_on_no_slash repo) by assumption.
    rewrite removelast_snoc, join_split_on, app_empty_l. reflexivity.
  - intros url H. rewrite split_on_no_slash by assumption.
    simpl. now rewrite app_empty_l.
Qed.

Lemma sibling_remote_spec_witness :
  sibling_remote ("https://github.com/org" +:+ "/" +:+ "app.git") "B"
  = "https://github.com/org" +:+ "/" +:+ "B" +:+ ".git"
  /\ sibling_remote "app" "B" = "/" +:+ "B" +:+ ".git".
Proof.
  split.
  - apply (proj1 (sibling_remote_spec "B")). reflexivity.
  - apply (proj2 (sibling_remote_spec "B")). reflexivity.
Defined.

(** ** [Discovery.dependencies] over a closed registry *)

Lemma weight_ext (v v' : gset nat) (k : nat) (h : list Service) :
  (forall j, k <= j -> (j ∈ v <-> j ∈ v')) -> weight v k h = weight v' k h.
Proof.
  revert k. induction h as [|svc h IH]; intros k Hsame; [reflexivity|].
  simpl. rewrite (IH (S k)) by (intros j Hj; apply Hsame; lia).
  f_equal. destruct (Hsame k (le_n k)) as [H1 H2].
  destruct (decide (k ∈ v)) as [Hin|Hout].
  - now rewrite !bool_decide_eq_true_2 by auto.
  - now rewrite !bool_decide_eq_false_2 by auto.
Qed.

Lemma weight_visit (v : gset nat) (k : nat) (h : list Service) (id : nat)
    (svc : Service) :
  h !! id = Some svc -> k + id ∉ v ->
  weight v k h = requires_count svc + weight ({[k + id]} ∪ v) k h.
Proof.
  revert k id. induction h as [|svc0 h IH]; intros k id Hl Hout;
    [discriminate|].
  destruct id as [|id]; simpl in Hl.
  - injection Hl as ->. rewrite Nat.add_0_r in *. simpl.
    rewrite bool_decide_eq_false_2 by assumption.
    rewrite bool_decide_eq_true_2 by set_solver. simpl. f_equal.
    apply weight_ext. intros j Hj. set_unfold. split; [auto|].
    intros [->|H]; [lia|assumption].
  - cbn [weight]. replace (k + S id) with (S k + id) in * by lia.
    rewrite (IH (S k) id Hl Hout).
    assert (Hk : k ∈ ({[S k + id]} ∪ v : gset nat) <-> k ∈ v).
    { set_unfold. split; [intros [H|H]; [lia|assumption]|auto]. }
    rewrite (bool_decide_ext _ _ Hk).
    destruct (bool_decide (k ∈ v)); lia.
Qed.

Lemma weight_empty (k : nat) (h : list Service) :
  weight ∅ k h = sum_list_with requires_count h.
Proof.
  revert k. induction h as [|svc h IH]; intros k; [reflexivity|].
  simpl. rewrite IH. rewrite bool_decide_eq_false_2 by set_solver.
  reflexivity.
Qed.

Section ClosedRegistry.

Context (E : Collaborators) (forge : Forge.t).

(** A loaded service answers its requirements from the cache. *)
Lemma requires_cached (id : nat) (svc : Service) (reqs : list string)
    (st : state) :
  heap st !! id = Some svc -> cached_requires svc = Some reqs ->
  Service.requires E id st = (inr reqs, st).
Proof.
  unfold cached_requires. intros Hsvc Hreqs.
  destruct (_info svc) as [i|] eqn:Hi; [|discriminate].
  injection Hreqs as <-.
  unfold Service.requires, Service.info, bind.
  rewrite (get_service_lookup st id svc Hsvc), Hi. reflexivity.
Qed.

(** The loop over the requirements of one service, all registered:
    nothing is resolved and the state stays as it is. *)
Lemma for_requires_closed (root : nat) (targets reqs : list string)
    (st : state) :
  (forall r, r ∈ reqs -> is_Some (services st !! r)) ->
  forall todo added, NoDup added ->
    exists ids added',
      Discovery.for_requires E forge root targets reqs todo added [] st
      = (inr (todo ++ ids, added', []), st)
      /\ Forall2 (fun r id => services st !! r = Some id) reqs ids
      /\ NoDup added'
      /\ (forall n, n ∈ added'
                    <-> n ∈ added \/ (n ∈ reqs /\ n ∉ targets)).
Proof.
  induction reqs as [|r reqs IH]; intros Hreg todo added Hnd.
  - exists [], added. rewrite app_nil_r. split; [reflexivity|].
    split; [constructor|]. split; [assumption|].
    intros n. split; [auto|]. intros [H|[H _]]; [assumption|].
    inversion H.
  - destruct (Hreg r (list_elem_of_here _ _)) as [s Hs].
    rewrite (for_requires_registered E forge root targets r reqs todo added
               [] st s Hs).
    set (added1 := if negb (bool_decide (r ∈ targets))
                      && negb (bool_decide (r ∈ added))
                   then added ++ [r] else added).
    assert (Hadded1 : NoDup added1
                      /\ forall n, n ∈ added1
                                   <-> n ∈ added \/ (n = r /\ n ∉ targets)).
    { unfold added1.
      destruct (decide (r ∈ targets)) as [Ht|Ht];
        [rewrite (bool_decide_eq_true_2 _ Ht)
        |rewrite (bool_decide_eq_false_2 _ Ht)]; simpl.
      - split; [assumption|]. intros n. split; [auto|].
        intros [H|[-> H]]; [assumption|contradiction].
      - destruct (decide (r ∈ added)) as [Ha|Ha];
          [rewrite (bool_decide_eq_true_2 _ Ha)
          |rewrite (bool_decide_eq_false_2 _ Ha)]; simpl.
        + split; [assumption|]. intros n. split; [auto|].
          intros [H|[-> H]]; assumption.
        + split.
          * apply NoDup_app. split; [assumption|].
            split; [|apply NoDup_singleton].
            intros x Hx Hx'. apply list_elem_of_singleton in Hx' as ->.
            contradiction.
          * intros n. rewrite elem_of_app, list_elem_of_singleton.
            split; [intros [H| ->]; auto|]. intros [H|[-> _]]; auto. }
    destruct Hadded1 as [Hnd1 Hin1].
    assert (Hreg' : forall x, x ∈ reqs -> is_Some (services st !! x)).
    { intros x Hx. apply Hreg. now apply list_elem_of_further. }
    destruct (IH Hreg' (todo ++ [s]) added1 Hnd1)
      as (ids & added' & Hrun & Hids & Hnd' & Hin').
    exists (s :: ids), added'. split.
    { rewrite Hrun. now rewrite <- app_assoc. }
    split; [now constructor|]. split; [assumption|].
    intros n. rewrite Hin', Hin1, elem_of_cons. tauto.
Qed.

Lemma Forall2_elem_r {A B} (P : A -> B -> Prop) (l : list A) (k : list B)
    (y : B) :
  Forall2 P l k -> y ∈ k -> exists x, x ∈ l /\ P x y.
Proof.
  induction 1 as [|x y0 l k Hxy _ IH]; intros Hy.
  - inversion Hy.
  - apply elem_of_cons in Hy as [->|Hy].
    + exists x. split; [apply list_elem_of_here|assumption].
    + destruct (IH Hy) as (x' & Hx' & HP).
      exists x'. split; [now apply list_elem_of_further|assumption].
Qed.

Lemma Forall2_elem_l {A B} (P : A -> B -> Prop) (l : list A) (k : list B)
    (x : A) :
  Forall2 P l k -> x ∈ l -> exists y, y ∈ k /\ P x y.
Proof.
  induction 1 as [|x0 y l k Hxy _ IH]; intros Hx.
  - inversion Hx.
  - apply elem_of_cons in Hx as [->|Hx].
    + exists y. split; [apply list_elem_of_here|assumption].
    + destruct (IH Hx) as (y' & Hy' & HP).
      exists y'. split; [now apply list_elem_of_further|assumption].
Qed.

(** One more service visited. *)
Lemma closure_inv_visit (st : state) (targets : list string)
    (l : list nat) (x : nat) (visited : gset nat) (added : list string)
    (n : string) (svc : Service) (reqs : list string) (ids : list nat)
    (added' : list string) :
  closure_inv st targets (l ++ [x]) visited added ->
  reaches st targets n -> services st !! n = Some x ->
  heap st !! x = Some svc -> cached_requires svc = Some reqs ->
  Forall2 (fun r id => services st !! r = Some id) reqs ids ->
  NoDup added' ->
  (forall m, m ∈ added' <-> m ∈ added \/ (m ∈ reqs /\ m ∉ targets)) ->
  closure_inv st targets (l ++ ids) ({[x]} ∪ visited) added'.
Proof.
  intros [Htodo Hvis Hadd Hnd Hpend] Hreach Hn Hsvc Hreqs Hids Hnd' Hin'.
  assert (Hstep : forall r, r ∈ reqs -> reaches st targets r).
  { intros r Hr. eapply reaches_step; eauto. }
  split.
  - intros id Hid. apply elem_of_app in Hid as [Hid|Hid].
    + apply Htodo. apply elem_of_app. now left.
    + destruct (Forall2_elem_r _ _ _ _ Hids Hid) as (r & Hr & Hlook).
      exists r. split; [now apply Hstep|assumption].
  - intros id svc0 reqs0 r Hid Hsvc0 Hreqs0 Hr.
    apply elem_of_union in Hid as [Hid|Hid].
    + apply elem_of_singleton in Hid as ->.
      assert (svc0 = svc) by congruence. subst svc0.
      assert (reqs0 = reqs) by congruence. subst reqs0.
      destruct (decide (r ∈ targets)) as [Ht|Ht]; [now left|].
      right. apply Hin'. auto.
    + destruct (Hvis id svc0 reqs0 r Hid Hsvc0 Hreqs0 Hr) as [Ht|Ha];
        [now left|].
      right. apply Hin'. auto.
  - intros m Hm. apply Hin' in Hm as [Hm|[Hm Ht]]; [now apply Hadd|].
    split; [now apply Hstep|assumption].
  - assumption.
  - intros m Hm.
    assert (Hcase : (m ∈ targets \/ m ∈ added) \/ m ∈ reqs).
    { destruct Hm as [Hm|Hm]; [auto|].
      apply Hin' in Hm as [Hm|[Hm _]]; auto. }
    destruct Hcase as [Hold|Hnew].
    + destruct (Hpend m Hold) as (id & Hlook & Hwhere).
      exists id. split; [assumption|].
      destruct Hwhere as [Hid|Hid].
      * apply elem_of_app in Hid as [Hid|Hid].
        -- left. apply elem_of_app. now left.
        -- apply list_elem_of_singleton in Hid as ->.
           right. apply elem_of_union. left. now apply elem_of_singleton.
      * right. apply elem_of_union. now right.
    + destruct (Forall2_elem_l _ _ _ _ Hids Hnew) as (id & Hid & Hlook).
      exists id. split; [assumption|]. left. apply elem_of_app. now right.
Qed.

(** The loop ends within the bound, changes nothing and keeps the
    invariant. *)
Lemma while_todo_closed (root : nat) (targets : list string) (st : state) :
  closed st ->
  forall fuel todo visited added,
    closure_inv st targets todo visited added ->
    length todo + weight visited 0 (heap st) <= fuel ->
    exists added' visited',
      Discovery.while_todo E forge fuel root targets todo visited added []
        st = (inr (added', []), st)
      /\ closure_inv st targets [] visited' added'.
Proof.
  intros Hclosed. induction fuel as [|fuel IH];
    intros todo visited added Hinv Hfuel.
  - destruct todo as [|x todo]; [|simpl in Hfuel; lia].
    exists added, visited. split; [reflexivity|assumption].
  - destruct todo as [|x l _] using rev_ind.
    + exists added, visited. split; [reflexivity|assumption].
    + rewrite length_app in Hfuel. simpl in Hfuel.
      destruct (decide (x ∈ visited)) as [Hin|Hout].
      * cbn [Discovery.while_todo]. rewrite pop_snoc.
        rewrite bool_decide_eq_true_2 by assumption.
        apply IH; [|lia].
        destruct Hinv as [Htodo Hvis Hadd Hnd Hpend]. split; auto.
        -- intros id Hid. apply Htodo, elem_of_app. now left.
        -- intros m Hm. destruct (Hpend m Hm) as (id & Hlook & Hwhere).
           exists id. split; [assumption|].
           destruct Hwhere as [Hid|Hid]; [|now right].
           apply elem_of_app in Hid as [Hid|Hid]; [now left|].
           apply list_elem_of_singleton in Hid as ->. now right.
      * destruct (ci_todo _ _ _ _ _ Hinv x) as (n & Hreach & Hn).
        { apply elem_of_app. right. apply list_elem_of_here. }
        destruct (Hclosed n x Hn) as (svc & reqs & Hsvc & Hreqs & Hreg).
        rewrite (while_todo_visit E forge fuel root targets (l ++ [x]) l x
                   visited added [] st reqs (pop_snoc l x) Hout
                   (requires_cached x svc reqs st Hsvc Hreqs)).
        destruct (for_requires_closed root targets reqs st Hreg l added
                    (ci_nodup _ _ _ _ _ Hinv))
          as (ids & added' & Hrun & Hids & Hnd' & Hin').
        rewrite Hrun. apply IH.
        -- eapply closure_inv_visit; eauto.
        -- rewrite length_app.
           pose proof (Forall2_length _ _ _ Hids) as Hlen.
           pose proof (weight_visit visited 0 (heap st) x svc Hsvc Hout)
             as Hw.
           unfold requires_count in Hw. rewrite Hreqs in Hw. simpl in Hw.
           lia.
Qed.

Lemma lookup_targets_closed (st : state) (targets : list string) :
  (forall t, t ∈ targets -> is_Some (services st !! t)) ->
  exists ids, mapM Discovery.getitem targets st = (inr ids, st)
              /\ Forall2 (fun t id => services st !! t = Some id)
                         targets ids.
Proof.
  induction targets as [|t targets IH]; intros Hall.
  - exists []. split; [reflexivity|constructor].
  - destruct (Hall t (list_elem_of_here _ _)) as [x Hx].
    destruct IH as (ids & Hids & Hall2).
    { intros u Hu. apply Hall. now apply list_elem_of_further. }
    exists (x :: ids). split; [|now constructor].
    simpl. unfold bind. rewrite (getitem_present _ _ _ Hx).
    fold (@bind (list nat) (list nat)). unfold bind. now rewrite Hids.
Qed.

(** X12: over a registry where every registered service has its
    descriptor loaded and requires registered names only,
    [dependencies] returns once the loop bound covers the targets and
    the requirements listed; it changes nothing, raises nothing, and
    the list it returns has no duplicate and holds exactly the names
    that a target requires, directly or through other services, and
    that are not targets themselves. *)
Theorem dependencies_closed_registry (fuel : nat) (targets : list string)
    (st : state) :
  closed st -> targets <> [] ->
  (forall t, t ∈ targets -> is_Some (services st !! t)) ->
  length targets + sum_list_with requires_count (heap st) <= fuel ->
  exists added,
    Discovery.dependencies E forge fuel targets st = (inr added, st)
    /\ NoDup added
    /\ forall n, n ∈ added <-> reaches st targets n /\ n ∉ targets.
Proof.
  intros Hclosed Hne Hreg Hfuel.
  destruct (lookup_targets_closed st targets Hreg) as (ids & Hids & Hall).
  assert (Hinv0 : closure_inv st targets ids ∅ []).
  { split.
    - intros id Hid.
      destruct (Forall2_elem_r _ _ _ _ Hall Hid) as (t & Ht & Hlook).
      exists t. split; [now apply reaches_target|assumption].
    - intros id svc reqs r Hid. set_solver.
    - intros n Hn. inversion Hn.
    - constructor.
    - intros n [Hn|Hn]; [|inversion Hn].
      destruct (Forall2_elem_l _ _ _ _ Hall Hn) as (id & Hid & Hlook).
      exists id. auto. }
  destruct ids as [|root ids'] eqn:Heq.
  { apply Forall2_length in Hall. destruct targets; [congruence|].
    discriminate. }
  rewrite <- Heq in *.
  destruct (while_todo_closed root targets st Hclosed fuel ids ∅ [] Hinv0)
    as (added & visited & Hrun & Hinv).
  { rewrite weight_empty. apply Forall2_length in Hall. lia. }
  exists added. unfold Discovery.dependencies, bind.
  rewrite Hids, Heq. rewrite <- Heq, Hrun.
  split; [reflexivity|]. split; [exact (ci_nodup _ _ _ _ _ Hinv)|].
  assert (Hall_reached : forall n, reaches st targets n ->
                                   n ∈ targets \/ n ∈ added).
  { induction 1 as [t Ht|n id svc reqs r _ IH Hn Hsvc Hreqs Hr];
      [now left|].
    destruct (ci_pending _ _ _ _ _ Hinv n IH) as (id' & Hlook & Hwhere).
    assert (id' = id) by congruence. subst id'.
    destruct Hwhere as [Hnil|Hvis]; [inversion Hnil|].
    exact (ci_visited _ _ _ _ _ Hinv id svc reqs r Hvis Hsvc Hreqs Hr). }
  intros n. split.
  - apply (ci_added _ _ _ _ _ Hinv).
  - intros [Hreach Hnot].
    destruct (Hall_reached n Hreach); [contradiction|assumption].
Qed.

End ClosedRegistry.

Lemma closed_st_chain : closed st_chain.
Proof.
  intros nm id H. apply elem_of_map_to_list in H.
  remember (map_to_list (services st_chain)) as l eqn:Hl.
  vm_compute in Hl. subst l.
  repeat (apply elem_of_cons in H as [H|H];
          [injection H as -> ->;
           eexists _, _;
           (split; [vm_compute; reflexivity|]);
           (split; [vm_compute; reflexivity|]);
           intros r Hr;
           repeat (apply elem_of_cons in Hr as [->|Hr];
                   [eexists; vm_compute; reflexivity|]);
           inversion Hr|]).
  inversion H.
Qed.

Lemma dependencies_closed_registry_witness :
  exists added,
    Discovery.dependencies world forge0 3 ["A"] st_chain
    = (inr added, st_chain)
    /\ NoDup added
    /\ forall n, n ∈ added <-> reaches st_chain ["A"] n /\ n ∉ ["A"].
Proof.
  apply (dependencies_closed_registry world forge0 3 ["A"] st_chain).
  - exact closed_st_chain.
  - discriminate.
  - intros t Ht. apply list_elem_of_singleton in Ht as ->.
    exists 0. vm_compute. reflexivity.
  - vm_compute. lia.
Defined.

(** ** [Service.info]: a descriptor that does not load *)

(** X13: when [Service.info] raises, nothing is cached and nothing
    else changes.  A descriptor that cannot be read gives the [IOError]
    of the read, and a schema, parser or scanner error of the loader
    gives a [TaskError] that starts with [error parsing service yaml: ].
    The next call reads the descriptor again, and answers as soon as
    the file on disk loads. *)
Theorem info_failure_not_cached (E : Collaborators) (id : nat)
    (svc : Service) (st : state) (e : exn) (st' : state) :
  heap st !! id = Some svc ->
  Service.info E id st = (inl e, st') ->
  st' = st /\ _info svc = None
  /\ (forall errno,
        open_read (fs st) (descriptor svc) = inl errno ->
        e = IOError errno)
  /\ (forall content m,
        open_read (fs st) (descriptor svc) = inr content ->
        (let loaded :=
           service_info_load E (render_abs (descriptor svc))
             (renders E (render_abs (descriptor svc)) content (branch svc))
         in loaded = SchemaError m \/ loaded = LoadParserError m
            \/ loaded = LoadScannerError m) ->
        e = TaskError ("error parsing service yaml: " +:+ m))
  /\ (forall f' i,
        load_service_yaml E f' (descriptor svc) (branch svc) = inr i ->
        Service.info E id (set_fs f' st')
        = (inr i, set_heap (<[id := with_info svc i]> (heap st))
                    (set_fs f' st))).
Proof.
  intros Hsvc H. unfold Service.info, bind in H.
  rewrite (get_service_lookup st id svc Hsvc) in H.
  destruct (_info svc) as [i0|] eqn:Hi; [discriminate|].
  unfold gets, lift in H. simpl in H.
  destruct (load_service_yaml E (fs st) (descriptor svc) (branch svc))
    as [e0|i0] eqn:Hload; [|discriminate].
  injection H as <- <-.
  split; [reflexivity|]. split; [reflexivity|].
  unfold load_service_yaml, read_file in Hload.
  split; [|split].
  - intros errno Hopen. rewrite Hopen in Hload. congruence.
  - intros content m Hopen Hloaded. rewrite Hopen in Hload.
    unfold load_service_yamls in Hload. cbv zeta in Hloaded.
    destruct Hloaded as [Hl|[Hl|Hl]]; rewrite Hl in Hload; congruence.
  - intros f' i Hi'. unfold Service.info, bind, get_service. simpl.
    rewrite Hsvc, Hi. unfold gets, lift. simpl. rewrite Hi'.
    reflexivity.
Qed.

Lemma info_failure_not_cached_witness :
  snd (Service.info world 0 (set_fs (Dir []) st_repo))
  = set_fs (Dir []) st_repo
  /\ fst (Service.info world 0
            (set_fs fs_repo (snd (Service.info world 0
                                    (set_fs (Dir []) st_repo)))))
     = inr {| info_name := None; info_requires := ReqList [];
              info_branches := [] |}.
Proof.
  destruct (info_failure_not_cached world 0
              (svc_at ["repo"; "svc"; "service.yaml"]
                 [["service.yaml"]; ["main.py"]])
              (set_fs (Dir []) st_repo) (IOError ENOENT)
              (snd (Service.info world 0 (set_fs (Dir []) st_repo))))
    as (Hst & _ & _ & _ & Hretry).
  - reflexivity.
  - vm_compute. reflexivity.
  - split; [exact Hst|].
    rewrite (Hretry fs_repo
               {| info_name := None; info_requires := ReqList [];
                  info_branches := [] |}); [reflexivity|].
    vm_compute. reflexivity.
Defined.

(** ** [Service.pull]: one pull for each git root *)

Lemma pull_cases (git_pull : option path -> exn + unit) (self : Service)
    (ps : pull_state) :
  (ServiceOps.pull git_pull self ps = (inr tt, ps)
   /\ ((is_git_attr self && shallow self) = true -> gitroot self ∈ pulled ps))
  \/ ((is_git_attr self && shallow self) = true
      /\ (gitroot self ∉ pulled ps)
      /\ exists r,
           ServiceOps.pull git_pull self ps
           = (r, {| pulled := {[gitroot self]} ∪ pulled ps;
                    ran := ran ps ++ [gitroot self] |})
           /\ ((r = inr tt /\ exists u, git_pull (gitroot self) = inr u)
               \/ exists e, r = inl e /\ git_pull (gitroot self) = inl e)).
Proof.
  unfold ServiceOps.pull.
  destruct (is_git_attr self && shallow self); [|left; split; [auto|discriminate]].
  destruct (decide (gitroot self ∈ pulled ps)) as [Hin|Hout].
  - rewrite bool_decide_eq_true_2 by assumption. left. auto.
  - rewrite bool_decide_eq_false_2 by assumption. simpl. right.
    split; [reflexivity|]. split; [assumption|].
    destruct (git_pull (gitroot self)) as [e|u].
    + eexists. split; [reflexivity|]. right. eauto.
    + eexists. split; [reflexivity|]. left. eauto.
Qed.

(** X14: calls of [Service.pull] made in turn with one shared dict run
    [git pull] at most once in each git root, never in a root the dict
    already holds, and only in the git root of a service that is in a
    git tree and was found by a shallow search; when no pull fails,
    every such service has its root in the dict afterwards; a pull that
    fails is the last one run, and its root is in the dict all the
    same. *)
Theorem pull_once_per_root (git_pull : option path -> exn + unit)
    (svcs : list Service) (ps : pull_state) (r : exn + unit)
    (ps' : pull_state) :
  ServiceOps.pull_each git_pull svcs ps = (r, ps') ->
  exists new,
    ran ps' = ran ps ++ new
    /\ NoDup new
    /\ (forall g, g ∈ new ->
          (g ∉ pulled ps)
          /\ exists s, s ∈ svcs /\ is_git_attr s = true
                       /\ shallow s = true /\ gitroot s = g)
    /\ (forall g, g ∈ pulled ps' <-> g ∈ pulled ps \/ g ∈ new)
    /\ (r = inr tt ->
        forall s, s ∈ svcs -> is_git_attr s = true -> shallow s = true ->
                  gitroot s ∈ pulled ps')
    /\ (forall e, r = inl e ->
          exists g, last new = Some g /\ git_pull g = inl e).
Proof.
  revert ps. induction svcs as [|self rest IH]; intros ps H.
  - simpl in H. injection H as <- <-. exists [].
    rewrite app_nil_r. split; [reflexivity|]. split; [constructor|].
    split; [intros g Hg; inversion Hg|].
    split; [intros g; split; [auto|intros [Hg|Hg]; [auto|inversion Hg]]|].
    split; [intros _ s Hs; inversion Hs|discriminate].
  - simpl in H.
    destruct (pull_cases git_pull self ps)
      as [[Hrun Hskip]|(Hflags & Hout & r1 & Hrun & Hres)];
      rewrite Hrun in H.
    + destruct (IH ps H) as (new & Hran & Hnd & Hnew & Hdict & Hok & Hfail).
      exists new. split; [assumption|]. split; [assumption|].
      split.
      { intros g Hg. destruct (Hnew g Hg) as (Hfresh & s & Hs & Hrest).
        split; [assumption|]. exists s.
        split; [now apply list_elem_of_further|assumption]. }
      split; [assumption|]. split; [|assumption].
      intros Hr s Hs Hgit Hsh. apply elem_of_cons in Hs as [->|Hs].
      * apply Hdict. left. apply Hskip. now rewrite Hgit, Hsh.
      * now apply Hok.
    + apply andb_true_iff in Hflags as [Hgit Hsh].
      set (ps1 := {| pulled := {[gitroot self]} ∪ pulled ps;
                     ran := ran ps ++ [gitroot self] |}) in *.
      destruct Hres as [(-> & u & Hu)|(e & -> & He)].
      * destruct (IH ps1 H)
          as (new & Hran & Hnd & Hnew & Hdict & Hok & Hfail).
        exists (gitroot self :: new). simpl in Hran.
        split; [now rewrite Hran, <- app_assoc|].
        split.
        { constructor; [|assumption]. intros Hin.
          destruct (Hnew _ Hin) as [Hfresh _]. apply Hfresh.
          simpl. apply elem_of_union. left. now apply elem_of_singleton. }
        split.
        { intros g Hg. apply elem_of_cons in Hg as [->|Hg].
          - split; [assumption|]. exists self.
            split; [apply list_elem_of_here|auto].
          - destruct (Hnew g Hg) as (Hfresh & s & Hs & Hrest).
            split.
            + intros Hin. apply Hfresh. simpl. apply elem_of_union.
              now right.
            + exists s. split; [now apply list_elem_of_further|assumption]. }
        split.
        { intros g. rewrite Hdict. simpl.
          rewrite elem_of_union, elem_of_singleton, elem_of_cons. tauto. }
        split.
        { intros Hr s Hs Hgit' Hsh'. apply elem_of_cons in Hs as [->|Hs].
          - apply Hdict. left. simpl. apply elem_of_union. left.
            now apply elem_of_singleton.
          - now apply Hok. }
        intros e He. destruct (Hfail e He) as (g & Hlast & Hg).
        exists g. split; [|assumption].
        destruct new as [|g0 new']; [discriminate|exact Hlast].
      * injection H as <- <-. exists [gitroot self].
        split; [reflexivity|]. split; [apply NoDup_singleton|].
        split.
        { intros g Hg. apply list_elem_of_singleton in Hg as ->.
          split; [assumption|]. exists self.
          split; [apply list_elem_of_here|auto]. }
        split.
        { intros g. simpl.
          rewrite elem_of_union, elem_of_singleton, list_elem_of_singleton.
          tauto. }
        split; [discriminate|].
        intros e' [= <-]. exists (gitroot self). auto.
Qed.

Lemma pull_once_per_root_witness :
  exists new,
    ran (snd (ServiceOps.pull_each (fun _ => inr tt)
                [svc_shallow ["r"; "a"; "service.yaml"];
                 svc_shallow ["r"; "b"; "service.yaml"]]
                {| pulled := ∅; ran := [] |}))
    = [] ++ new
    /\ NoDup new.
Proof.
  destruct (pull_once_per_root (fun _ => inr tt)
              [svc_shallow ["r"; "a"; "service.yaml"];
               svc_shallow ["r"; "b"; "service.yaml"]]
              {| pulled := ∅; ran := [] |} (inr tt)
              (snd (ServiceOps.pull_each (fun _ => inr tt)
                      [svc_shallow ["r"; "a"; "service.yaml"];
                       svc_shallow ["r"; "b"; "service.yaml"]]
                      {| pulled := ∅; ran := [] |})))
    as (new & Hran & Hnd & _).
  - vm_compute. reflexivity.
  - exists new. split; assumption.
Defined.

(** ** [Service.image] *)

Lemma replace_slash_no_slash (s : string) : no_slash (replace_slash s) = true.
Proof.
  induction s as [|c s IH]; [reflexivity|]. simpl. rewrite IH.
  destruct (Ascii.eqb c "/") eqn:Hc; [reflexivity|]. now rewrite Hc.
Qed.

Lemma replace_slash_app (a b : string) :
  replace_slash (a +:+ b) = replace_slash a +:+ replace_slash b.
Proof.
  induction a as [|c a IH]; [now rewrite !app_empty_l|].
  rewrite app_cons. simpl. now rewrite IH, app_cons.
Qed.

Lemma upto_last_slash_no_slash (s : string) :
  no_slash s = true -> upto_last_slash s = EmptyString.
Proof.
  induction s as [|c s IH]; intros H; [reflexivity|]. simpl in *.
  apply andb_true_iff in H as [Hc Hs]. apply negb_true_iff in Hc.
  now rewrite (IH Hs), Hc.
Qed.

Lemma slash_cons (f : string) : "/" +:+ f = String "/" f.
Proof. now rewrite app_cons, app_empty_l. Qed.

Lemma upto_last_slash_app (d f : string) :
  no_slash f = true -> upto_last_slash (d +:+ "/" +:+ f) = d +:+ "/".
Proof.
  intros Hf. rewrite slash_cons. induction d as [|c d IH].
  - rewrite !app_empty_l. simpl.
    now rewrite (upto_last_slash_no_slash f Hf).
  - rewrite !(app_cons c). simpl. rewrite IH.
    destruct d; [rewrite app_empty_l|rewrite app_cons]; reflexivity.
Qed.

Lemma rstrip_slash_snoc (d : string) :
  ends_with_slash d = false -> rstrip_slash (d +:+ "/") = d.
Proof.
  induction d as [|c d IH]; intros H; [reflexivity|].
  rewrite app_cons. simpl. destruct d as [|c' d].
  - simpl in *. now rewrite H.
  - rewrite (IH H). simpl. now rewrite andb_false_r.
Qed.

Lemma all_slashes_snoc (d : string) :
  ends_with_slash d = false -> d <> EmptyString ->
  all_slashes (d +:+ "/") = false.
Proof.
  induction d as [|c d IH]; intros H Hne; [congruence|].
  rewrite app_cons. simpl. destruct d as [|c' d].
  - simpl in *. now rewrite H.
  - rewrite IH by (auto; discriminate). apply andb_false_r.
Qed.

Lemma py_dirname_sub (d f : string) :
  no_slash f = true -> d <> EmptyString -> ends_with_slash d = false ->
  py_dirname (d +:+ "/" +:+ f) = d.
Proof.
  intros Hf Hne Hend. unfold py_dirname.
  rewrite (upto_last_slash_app d f Hf), (all_slashes_snoc d Hend Hne).
  rewrite (rstrip_slash_snoc d Hend).
  destruct d; [congruence|reflexivity].
Qed.

(** X15: the image name [Service.image] answers holds no slash.  For a
    Dockerfile in the root of the service it is the name of the
    service, slashes replaced by dashes; for one in a subdirectory it is
    the name joined to that directory, so [<name>-<dir>] with the
    slashes of both replaced, and the directory alone when it is an
    absolute path. *)
Theorem image_spec (E : Collaborators) (id : nat) (container : string)
    (st : state) (img : string) (st' : state) :
  ServiceOps.image E id container st = (inr img, st') ->
  exists nm,
    Service.name E id st = (inr nm, st')
    /\ no_slash img = true
    /\ (no_slash container = true -> img = replace_slash nm)
    /\ (forall d f,
          container = d +:+ "/" +:+ f -> no_slash f = true ->
          d <> EmptyString -> ends_with_slash d = false ->
          (starts_with_slash d = true -> img = replace_slash d)
          /\ (starts_with_slash d = false -> nm <> EmptyString ->
              ends_with_slash nm = false ->
              img = replace_slash nm +:+ "-" +:+ replace_slash d)).
Proof.
  unfold ServiceOps.image. intros H.
  step_in H as nm st1 Hname. apply ret_inr in H as [-> ->].
  exists nm. split; [assumption|].
  split; [apply replace_slash_no_slash|]. split.
  - intros Hc. unfold py_dirname.
    now rewrite (upto_last_slash_no_slash container Hc).
  - intros d f -> Hf Hne Hend.
    rewrite (py_dirname_sub d f Hf Hne Hend).
    assert (Hd : nonempty d = true) by (destruct d; [congruence|reflexivity]).
    rewrite Hd. unfold py_join. split.
    + intros ->. reflexivity.
    + intros -> Hnm Hnmend.
      assert (Hn : nonempty nm = true)
        by (destruct nm; [congruence|reflexivity]).
      rewrite Hn, Hnmend. simpl.
      now rewrite !replace_slash_app.
Qed.

Lemma image_spec_witness :
  fst (ServiceOps.image world 0 ("sub" +:+ "/" +:+ "Dockerfile") st_repo)
  = inr ("svc" +:+ "-" +:+ "sub").
Proof.
  destruct (image_spec world 0 ("sub" +:+ "/" +:+ "Dockerfile") st_repo
              "svc-sub"
              (snd (ServiceOps.image world 0
                      ("sub" +:+ "/" +:+ "Dockerfile") st_repo)))
    as (nm & Hname & _ & _ & Hsub).
  - vm_compute. reflexivity.
  - vm_compute. reflexivity.
Defined.

(** ** [Service.__init__] and [Service.rel_descriptor] *)

Lemma search_parents_up_shape (f : node) (name : string)
    (rstart : list string) (root : bool) (rootiest : option path)
    (g : path) :
  search_parents_up f name rstart root rootiest = Some g ->
  rootiest = Some g
  \/ exists k, g = rev (drop k rstart) ++ [name] /\ exists_ f g = true.
Proof.
  revert rootiest. induction rstart as [|x up IH]; intros rootiest H;
    simpl in H.
  - destruct (exists_ f [name]) eqn:Hex; simpl in H.
    + right. exists 0.
      destruct root; simpl in H; injection H as <-; auto.
    + now left.
  - destruct (exists_ f ((rev up ++ [x]) ++ [name])) eqn:Hex.
    + destruct root; simpl in H.
      * apply IH in H as [H|(k & -> & Hg)].
        -- injection H as <-. right. exists 0. auto.
        -- right. exists (S k). auto.
      * injection H as <-. right. exists 0. auto.
    + rewrite andb_false_l in H.
      apply IH in H as [H|(k & -> & Hg)]; [now left|].
      right. exists (S k). auto.
Qed.

Lemma search_parents_shape (f : node) (name : string) (start : path)
    (root : bool) (g : path) :
  search_parents f name start root = Some g ->
  exists q, q `prefix_of` start /\ g = q ++ [name] /\ exists_ f g = true.
Proof.
  unfold search_parents. intros H.
  apply search_parents_up_shape in H as [H|(k & -> & Hg)]; [discriminate|].
  exists (rev (drop k (rev start))). split; [|auto].
  exists (rev (take k (rev start))).
  rewrite <- rev_app_distr, take_drop. symmetry. apply rev_involutive.
Qed.

Lemma prefix_removelast {A} (q l : list A) :
  q `prefix_of` removelast l -> q `prefix_of` l.
Proof.
  intros Hq. etrans; [exact Hq|].
  destruct l as [|x l] using rev_ind; [reflexivity|].
  rewrite removelast_snoc. now exists [x].
Qed.

Lemma dirname_snoc (l : path) (x : string) : dirname (l ++ [x]) = l.
Proof. apply removelast_snoc. Qed.

(** X16: an object made by [Service.__init__] is in a git tree exactly
    when it has a git root; its git root and its forge root are the
    service root or directories above it, and hold an entry [.git],
    respectively [service.yaml]; so [rel_descriptor] answers, and the
    path it answers, joined to the git root (to the forge root outside
    git), is the descriptor. *)
Theorem init_roots_enclose (E : Collaborators) (forge : Forge.t)
    (desc : path) (sh : bool) (st : state) (id : nat) (st' : state) :
  Service.init E forge desc sh st = (inr id, st') ->
  exists svc,
    heap st' !! id = Some svc /\ descriptor svc = desc
    /\ (is_git_attr svc = true <-> is_Some (gitroot svc))
    /\ (forall g, gitroot svc = Some g ->
          g `prefix_of` root svc
          /\ exists_ (fs st) (g ++ [".git"]) = true)
    /\ forgeroot svc `prefix_of` root svc
    /\ exists_ (fs st) (forgeroot svc ++ ["service.yaml"]) = true
    /\ exists rel,
         ServiceOps.rel_descriptor svc = inr rel
         /\ default (forgeroot svc) (gitroot svc) ++ rel = desc.
Proof.
  unfold Service.init. intros H.
  destruct (search_parents (fs st) "service.yaml" (dirname desc) true)
    as [top|] eqn:Htop.
  2: { destruct (search_parents (fs st) ".git" (dirname desc) false);
         discriminate. }
  apply search_parents_shape in Htop as (qf & Hqf & -> & Hexf).
  assert (Hround : forall q, q `prefix_of` dirname desc ->
                             q ++ relpath desc q = desc).
  { intros q Hq. apply prefix_removelast in Hq as [k ->].
    unfold relpath. now rewrite drop_app_length. }
  destruct (search_parents (fs st) ".git" (dirname desc) false)
    as [g|] eqn:Hgit.
  - apply search_parents_shape in Hgit as (qg & Hqg & -> & Hexg).
    injection H as <- <-. eexists. simpl.
    split; [apply list_lookup_middle; reflexivity|]. simpl.
    rewrite !dirname_snoc. unfold root.
    cbn [descriptor gitroot forgeroot is_git_attr].
    split; [reflexivity|]. split; [split; eauto|].
    split; [intros g [= <-]; auto|].
    split; [assumption|]. split; [assumption|].
    eexists. unfold ServiceOps.rel_descriptor.
    cbn [descriptor gitroot forgeroot is_git_attr default].
    split; [reflexivity|]. now apply Hround.
  - injection H as <- <-. eexists. simpl.
    split; [apply list_lookup_middle; reflexivity|]. simpl.
    rewrite !dirname_snoc. unfold root.
    cbn [descriptor gitroot forgeroot is_git_attr].
    split; [reflexivity|].
    split; [split; [discriminate|intros [x Hx]; discriminate]|].
    split; [discriminate|].
    split; [assumption|]. split; [assumption|].
    eexists. unfold ServiceOps.rel_descriptor.
    cbn [descriptor gitroot forgeroot is_git_attr default].
    split; [reflexivity|]. now apply Hround.
Qed.

Lemma init_roots_enclose_witness :
  exists svc rel,
    heap (snd (Service.init world forge0 ["repo"; "svc"; "service.yaml"]
                 false (st_empty fs_repo))) !! 0 = Some svc
    /\ ServiceOps.rel_descriptor svc = inr rel
    /\ default (forgeroot svc) (gitroot svc) ++ rel
       = ["repo"; "svc"; "service.yaml"].
Proof.
  destruct (init_roots_enclose world forge0 ["repo"; "svc"; "service.yaml"]
              false (st_empty fs_repo) 0
              (snd (Service.init world forge0
                      ["repo"; "svc"; "service.yaml"] false
                      (st_empty fs_repo))))
    as (svc & Hsvc & _ & _ & _ & _ & _ & rel & Hrel & Hround).
  - vm_compute. reflexivity.
  - exists svc, rel. auto.
Defined.
